(** * NegaLog: a shallow embedding of the detection pipeline

    The development follows the Go sources of the repository:
    - [pkg/parser]   : parsed lines, log sources, the k-way merged source
                       (on top of Go's [container/heap]), the timestamp
                       extractor;
    - [pkg/analyzer] : the sequence, periodic and conditional rule engines and
                       the analyzer that drives them;
    - [pkg/detector] : the timestamp format detector.

    Conventions.
    - Go [int], [int64] and [time.Duration] values are integers of [Z]; the
      places where the 64-bit range matters ([time.Time.Sub], [strconv.ParseInt],
      counters) write the saturation, the range check or the wrap-around out.
    - A [time.Time] is the instant it denotes, in nanoseconds since the Unix
      epoch.  Parsed timestamps carry no monotonic clock reading, so [Before],
      [After] and [Sub] only depend on that instant.
    - A compiled [*regexp.Regexp] is the function it computes on strings.
    - A run-time panic (index out of range) is an explicit [None].
    - Go's map iteration order is unspecified: code that ranges over a map
      takes the order of the traversal as an argument. *)

From Stdlib Require Import ZArith List String Ascii Lia ZifyNat Permutation
  QArith Qcanon.
From stdpp Require Import base option list gmap strings sorting.

Open Scope Z_scope.

(** ** Machine integers, time and durations *)

Definition minInt64 : Z := - 2 ^ 63.
Definition maxInt64 : Z := 2 ^ 63 - 1.

(** Wrap-around of the 64-bit signed [int]. *)
Definition wrap_int (z : Z) : Z := (z + 2 ^ 63) mod 2 ^ 64 - 2 ^ 63.

(** [x++] on an [int]. *)
Definition incr (x : Z) : Z := wrap_int (x + 1).

(** [len(l)] as a Go [int]. *)
Definition len {A} (l : list A) : Z := Z.of_nat (length l).

Definition Time := Z.
Definition Duration := Z.

Definition minDuration : Duration := minInt64.
Definition maxDuration : Duration := maxInt64.

Definition Nanosecond : Duration := 1.
Definition Second : Duration := 1000000000.
Definition Minute : Duration := 60 * Second.

(** [t.Before(u)] and [t.After(u)]. *)
Definition Before (t u : Time) : bool := t <? u.
Definition After (t u : Time) : bool := u <? t.

(** [t.Sub(u)]: the duration [t - u], saturated to the range of [Duration]
    ("If the result exceeds the maximum (or minimum) value that can be stored
    in a Duration, the maximum (or minimum) duration will be returned"). *)
Definition Sub (t u : Time) : Duration :=
  if t - u <? minDuration then minDuration
  else if maxDuration <? t - u then maxDuration
  else t - u.

(** [time.Unix(sec, 0)]. *)
Definition time_Unix (sec : Z) : Time := sec * Second.

(** [time.UnixMilli(ms)]. *)
Definition time_UnixMilli (ms : Z) : Time := ms * 1000000.

(** [d.Round(m)]: [d] rounded to the nearest multiple of [m], halfway values
    away from zero, saturating.  [Z.rem] is Go's [%]. *)
Definition lessThanHalf (x y : Duration) : bool := x + x <? y.

Definition Duration_Round (d m : Duration) : Duration :=
  if m <=? 0 then d
  else
    let r := Z.rem d m in
    if d <? 0 then
      let r := - r in
      if lessThanHalf r m then d + r
      else if d - m + r <? minDuration then minDuration else d - m + r
    else
      if lessThanHalf r m then d - r
      else if maxDuration <? d + m - r then maxDuration else d + m - r.

(** ** Regular expressions

    A compiled pattern is the function [FindStringSubmatch]: [None] is Go's
    [nil] (no match); [Some ms] carries the whole match at index 0 followed by
    the capture groups. *)

Record Regexp := mkRegexp { FindStringSubmatch : string -> option (list string) }.

Definition MatchString (re : Regexp) (s : string) : bool :=
  match FindStringSubmatch re s with Some _ => true | None => false end.

(** [ms[k]] for a Go [int] index: [None] is the index-out-of-range panic. *)
Definition index {A} (ms : list A) (k : Z) : option A :=
  if k <? 0 then None else ms !! Z.to_nat k.

(** [fmt.Sprintf(format, args...)], kept as the format and its arguments. *)
Inductive fmtArg :=
| FDuration (d : Duration)
| FString (s : string)
| FInt (n : Z).

Inductive Text :=
| Plain (s : string)
| Sprintf (format : string) (args : list fmtArg).

(** ** pkg/parser: parsed lines and log sources *)

Record ParsedLine := mkParsedLine {
  Raw : string;
  Timestamp : Time;
  Source : string;
  LineNum : Z
}.

(** What one call of [LogSource.Next] returns. *)
Inductive NextResult :=
| GotLine (l : ParsedLine)
| EOF
| Failed (err : string).

(** A [LogSource] is the script of what its successive [Next] calls return
    before it is exhausted: a line, or an error other than [io.EOF] (an
    unreadable file, a cancelled context).  Once the script is used up every
    call returns [io.EOF]. *)
Inductive Outcome :=
| OLine (l : ParsedLine)
| OErr (err : string).

Definition LogSource := list Outcome.

Definition LogSource_Next (s : LogSource) : NextResult * LogSource :=
  match s with
  | [] => (EOF, [])
  | OLine l :: s' => (GotLine l, s')
  | OErr e :: s' => (Failed e, s')
  end.

(** The records a source yields, in order. *)
Fixpoint records (s : LogSource) : list ParsedLine :=
  match s with
  | [] => []
  | OLine l :: s' => l :: records s'
  | OErr _ :: s' => records s'
  end.

(** ** container/heap over [lineHeap] *)

Record heapItem := mkHeapItem {
  line : ParsedLine;
  sourceIdx : nat
}.

Definition lineHeap := list heapItem.

Module lineHeap.

Definition Len (h : lineHeap) : Z := len h.

(** [h[i].line.Timestamp.Before(h[j].line.Timestamp)] *)
Definition Less (h : lineHeap) (i j : nat) : bool :=
  match h !! i, h !! j with
  | Some a, Some b => Before (Timestamp (line a)) (Timestamp (line b))
  | _, _ => false
  end.

(** [h[i], h[j] = h[j], h[i]] *)
Definition Swap (h : lineHeap) (i j : nat) : lineHeap :=
  match h !! i, h !! j with
  | Some a, Some b => <[j := a]> (<[i := b]> h)
  | _, _ => h
  end.

Definition Push (h : lineHeap) (x : heapItem) : lineHeap := h ++ [x].

(** [old[n-1]] and [old[0 : n-1]]; [None] on an empty heap (a panic). *)
Definition Pop (h : lineHeap) : option (heapItem * lineHeap) :=
  match last h with
  | Some x => Some (x, removelast h)
  | None => None
  end.

End lineHeap.

Module heap.

(** The loop of [heap.up]; [fuel] bounds the number of iterations. *)
Fixpoint up_loop (fuel : nat) (h : lineHeap) (j : nat) : lineHeap :=
  match fuel with
  | O => h
  | S fuel' =>
      let i := ((j - 1) / 2)%nat in (* parent *)
      if (i =? j)%nat || negb (lineHeap.Less h j i) then h
      else up_loop fuel' (lineHeap.Swap h i j) i
  end.

Definition up (h : lineHeap) (j : nat) : lineHeap := up_loop (S j) h j.

(** The loop of [heap.down] on the first [n] elements. *)
Fixpoint down_loop (fuel : nat) (h : lineHeap) (i n : nat) : lineHeap :=
  match fuel with
  | O => h
  | S fuel' =>
      let j1 := (2 * i + 1)%nat in
      if (n <=? j1)%nat then h
      else
        let j := if (j1 + 1 <? n)%nat && lineHeap.Less h (j1 + 1) j1
                 then (j1 + 1)%nat else j1 in
        if negb (lineHeap.Less h j i) then h
        else down_loop fuel' (lineHeap.Swap h i j) j n
  end.

Definition down (h : lineHeap) (i0 n : nat) : lineHeap := down_loop n h i0 n.

(** [heap.Init]: [for i := n/2 - 1; i >= 0; i-- { down(h, i, n) }] *)
Fixpoint Init_loop (k : nat) (h : lineHeap) (n : nat) : lineHeap :=
  match k with
  | O => h
  | S i => Init_loop i (down h i n) n
  end.

Definition Init (h : lineHeap) : lineHeap :=
  let n := length h in Init_loop (n / 2) h n.

(** [heap.Push]: [h.Push(x); up(h, h.Len()-1)] *)
Definition Push (h : lineHeap) (x : heapItem) : lineHeap :=
  let h1 := lineHeap.Push h x in
  up h1 (length h1 - 1).

(** [heap.Pop]: [n := h.Len() - 1; h.Swap(0, n); down(h, 0, n); return h.Pop()] *)
Definition Pop (h : lineHeap) : option (heapItem * lineHeap) :=
  let n := (length h - 1)%nat in
  let h1 := lineHeap.Swap h 0 n in
  let h2 := down h1 0 n in
  lineHeap.Pop h2.

End heap.

(** ** MergedSource *)

Record MergedSource := mkMergedSource {
  sources : list LogSource;
  mheap : lineHeap;
  closed : bool
}.

Definition NewMergedSource (srcs : list LogSource) : MergedSource :=
  {| sources := srcs; mheap := []; closed := false |}.

Module MergedSource.

(** The loop of [initHeap] over the sources from index [i] on.  [rest] are
    the sources not yet visited; the result gives them back as they are
    after the visit, the heap, and the error that stopped the loop. *)
Fixpoint initHeap_loop (rest : list LogSource) (i : nat) (h : lineHeap)
  : list LogSource * lineHeap * option string :=
  match rest with
  | [] => ([], h, None)
  | src :: rest' =>
      match LogSource_Next src with
      | (EOF, src') =>
          let '(rest'', h', err) := initHeap_loop rest' (S i) h in
          (src' :: rest'', h', err)
      | (Failed e, src') => (src' :: rest', h, Some e)
      | (GotLine l, src') =>
          let '(rest'', h', err) :=
            initHeap_loop rest' (S i)
              (heap.Push h {| line := l; sourceIdx := i |}) in
          (src' :: rest'', h', err)
      end
  end.

Definition initHeap (m : MergedSource) : MergedSource * option string :=
  let '(srcs, h, err) := initHeap_loop (sources m) 0 (heap.Init (mheap m)) in
  ({| sources := srcs; mheap := h; closed := closed m |}, err).

(** The part of [Next] after the heap has been initialised. *)
Definition popAndRefill (m : MergedSource) : NextResult * MergedSource :=
  match heap.Pop (mheap m) with
  | None => (EOF, m)
  | Some (item, h) =>
      match sources m !! sourceIdx item with
      | None => (EOF, m) (* unreachable: items carry indices of [sources] *)
      | Some src =>
          match LogSource_Next src with
          | (GotLine nextLine, src') =>
              (GotLine (line item),
               {| sources := <[sourceIdx item := src']> (sources m);
                  mheap := heap.Push h {| line := nextLine;
                                          sourceIdx := sourceIdx item |};
                  closed := closed m |})
          | (EOF, src') =>
              (GotLine (line item),
               {| sources := <[sourceIdx item := src']> (sources m);
                  mheap := h; closed := closed m |})
          | (Failed e, src') =>
              (Failed e,
               {| sources := <[sourceIdx item := src']> (sources m);
                  mheap := h; closed := closed m |})
          end
      end
  end.

Definition Next (m : MergedSource) : NextResult * MergedSource :=
  if (lineHeap.Len (mheap m) =? 0) && negb (closed m) then
    match initHeap m with
    | (m', Some e) => (Failed e, m')
    | (m', None) =>
        if lineHeap.Len (mheap m') =? 0 then (EOF, m') else popAndRefill m'
    end
  else if lineHeap.Len (mheap m) =? 0 then (EOF, m)
  else popAndRefill m.

(** The consumer loop of the repository ([Analyzer.Analyze] and the tests):
    call [Next] until it returns [io.EOF] or an error.  Returns the records
    obtained and how the loop ended ([None]: out of fuel). *)
Fixpoint drain (fuel : nat) (m : MergedSource)
  : list ParsedLine * option NextResult :=
  match fuel with
  | O => ([], None)
  | S fuel' =>
      match Next m with
      | (GotLine l, m') =>
          let '(ls, r) := drain fuel' m' in (l :: ls, r)
      | (r, _) => ([], Some r)
      end
  end.

End MergedSource.

(** ** pkg/analyzer: results and issues *)

Inductive RuleType := RuleTypeSequence | RuleTypePeriodic | RuleTypeConditional.

Inductive IssueType :=
| IssueTypeMissingEnd
| IssueTypeGapExceeded
| IssueTypeMissingConsequence
| IssueTypeBelowMinOccurrences.

(** The zero [time.Time] (January 1, year 1, 00:00:00 UTC). *)
Definition zeroTime : Time := time_Unix (-62135596800).

Record RuleStats := mkRuleStats {
  LinesProcessed : Z;
  LinesMatched : Z;
  StartTime : Time;
  EndTime : Time
}.

Definition zeroStats : RuleStats :=
  {| LinesProcessed := 0; LinesMatched := 0;
     StartTime := zeroTime; EndTime := zeroTime |}.

Record IssueContext := mkIssueContext {
  CorrelationID : string;
  ctxStartTime : Time;
  ctxEndTime : Time;
  ctxSource : string;
  ctxLineNum : Z;
  Timeout : Duration;
  ActualGap : Duration;
  ExpectedGap : Duration;
  Occurrences : Z;
  MinRequired : Z
}.

Definition zeroContext : IssueContext :=
  {| CorrelationID := ""; ctxStartTime := zeroTime; ctxEndTime := zeroTime;
     ctxSource := ""; ctxLineNum := 0; Timeout := 0; ActualGap := 0;
     ExpectedGap := 0; Occurrences := 0; MinRequired := 0 |}.

Record Issue := mkIssue {
  Type_ : IssueType;
  Description : Text;
  Context : IssueContext
}.

Record RuleResult := mkRuleResult {
  RuleName : string;
  RuleType_ : RuleType;
  RuleDescription : string;
  Issues : list Issue;
  Stats : RuleStats
}.

Definition processedOne (s : RuleStats) : RuleStats :=
  {| LinesProcessed := incr (LinesProcessed s); LinesMatched := LinesMatched s;
     StartTime := StartTime s; EndTime := EndTime s |}.

Definition matchedOne (s : RuleStats) : RuleStats :=
  {| LinesProcessed := LinesProcessed s; LinesMatched := incr (LinesMatched s);
     StartTime := StartTime s; EndTime := EndTime s |}.

Definition endedAt (now : Time) (s : RuleStats) : RuleStats :=
  {| LinesProcessed := LinesProcessed s; LinesMatched := LinesMatched s;
     StartTime := StartTime s; EndTime := now |}.

(** ** The conditional engine (conditional.go) *)

Record triggerEvent := mkTriggerEvent {
  correlationID : string; (* empty if no correlation field *)
  timestamp : Time;
  source : string;
  lineNum : Z
}.

Module ConditionalEngine.

Record t := mk {
  name : string;
  description : string;
  timeout : Duration;
  corrField : Z; (* 0 means no correlation, 1+ is capture group index *)
  triggerPattern : Regexp;
  expectedPattern : Regexp;
  triggers : list triggerEvent;
  stats : RuleStats
}.

Definition with_triggers (e : t) (ts : list triggerEvent) : t :=
  mk (name e) (description e) (timeout e) (corrField e)
     (triggerPattern e) (expectedPattern e) ts (stats e).

Definition with_stats (e : t) (s : RuleStats) : t :=
  mk (name e) (description e) (timeout e) (corrField e)
     (triggerPattern e) (expectedPattern e) (triggers e) s.

(** The correlation id read off a match:
    [if e.corrField > 0 && e.corrField <= len(matches)-1 { id = matches[e.corrField] }] *)
Definition corrIDOf (e : t) (matches : list string) : string :=
  if (0 <? corrField e) && (corrField e <=? len matches - 1)
  then default "" (index matches (corrField e))
  else "".

(** The test in the body of the loop of [removeSatisfiedTriggers]. *)
Definition satisfied (e : t) (corrID : string) (eventTime : Time)
    (trigger : triggerEvent) : bool :=
  if 0 <? corrField e then
    if String.eqb (correlationID trigger) corrID then
      Sub eventTime (timestamp trigger) <=? timeout e
    else false
  else
    Sub eventTime (timestamp trigger) <=? timeout e.

(** The loop of [removeSatisfiedTriggers]: [rest] is what is left of
    [range e.triggers], [newTriggers] the slice built so far. *)
Fixpoint removeLoop (e : t) (corrID : string) (eventTime : Time)
    (rest newTriggers : list triggerEvent) : list triggerEvent :=
  match rest with
  | [] => newTriggers
  | trigger :: rest' =>
      if negb (satisfied e corrID eventTime trigger) then
        removeLoop e corrID eventTime rest' (newTriggers ++ [trigger])
      else if corrField e =? 0 then
        (* newTriggers = append(newTriggers, e.triggers[len(newTriggers)+1:]...); break *)
        newTriggers ++ drop (length newTriggers + 1) (triggers e)
      else
        removeLoop e corrID eventTime rest' newTriggers
  end.

Definition removeSatisfiedTriggers (e : t) (corrID : string)
    (eventTime : Time) : t :=
  with_triggers e (removeLoop e corrID eventTime (triggers e) []).

(** The first [if] of [Process]: the trigger pattern. *)
Definition processTrigger (e : t) (l : ParsedLine) : t :=
  match FindStringSubmatch (triggerPattern e) (Raw l) with
  | Some matches =>
      let trigger :=
        {| correlationID := corrIDOf e matches;
           timestamp := Timestamp l;
           source := Source l;
           lineNum := LineNum l |} in
      with_stats (with_triggers e (triggers e ++ [trigger]))
                 (matchedOne (stats e))
  | None => e
  end.

(** The second [if] of [Process]: the expected pattern. *)
Definition processExpected (e : t) (l : ParsedLine) : t :=
  match FindStringSubmatch (expectedPattern e) (Raw l) with
  | Some matches =>
      removeSatisfiedTriggers e (corrIDOf e matches) (Timestamp l)
  | None => e
  end.

Definition Process (e : t) (l : ParsedLine) : t :=
  let e := with_stats e (processedOne (stats e)) in
  let e := processTrigger e l in
  processExpected e l.

Definition issueOf (e : t) (trigger : triggerEvent) : Issue :=
  {| Type_ := IssueTypeMissingConsequence;
     Description :=
       if String.eqb (correlationID trigger) ""
       then Sprintf "Trigger event without expected consequence within %s"
              [FDuration (timeout e)]
       else Sprintf "Trigger event (id=%s) without expected consequence within %s"
              [FString (correlationID trigger); FDuration (timeout e)];
     Context :=
       {| CorrelationID := correlationID trigger;
          ctxStartTime := timestamp trigger;
          ctxEndTime := zeroTime;
          ctxSource := source trigger;
          ctxLineNum := lineNum trigger;
          Timeout := timeout e;
          ActualGap := 0; ExpectedGap := 0;
          Occurrences := 0; MinRequired := 0 |} |}.

(** [Finalize]; [now] is the reading of [time.Now()]. *)
Definition Finalize (now : Time) (e : t) : RuleResult * t :=
  let e := with_stats e (endedAt now (stats e)) in
  ({| RuleName := name e;
      RuleType_ := RuleTypeConditional;
      RuleDescription := description e;
      Issues := map (issueOf e) (triggers e);
      Stats := stats e |}, e).

Definition Reset (e : t) : t :=
  with_stats (with_triggers e []) zeroStats.

End ConditionalEngine.

(** ** The sequence engine *)

Record sequenceTracker := mkSequenceTracker {
  trkCorrelationID : string;
  startTime : Time;
  trkSource : string;
  trkLineNum : Z
}.

(** The order in which a [range] statement visits a map is not specified.
    [MapRange] is one choice of it: the entries of the map, rearranged. *)
Record MapRange (V : Type) := mkMapRange {
  visit : list (string * V) -> list (string * V);
  visit_perm : forall l, visit l ≡ₚ l
}.
Arguments mkMapRange {V} _ _.
Arguments visit {V} _ _.
Arguments visit_perm {V} _ _.

Module SequenceEngine.

Record t := mk {
  name : string;
  description : string;
  timeout : Duration;
  corrField : Z; (* 1-based capture group index *)
  startPattern : Regexp;
  endPattern : Regexp;
  openSequences : gmap string sequenceTracker; (* key: correlation ID *)
  stats : RuleStats
}.

Definition with_open (e : t) (m : gmap string sequenceTracker) : t :=
  mk (name e) (description e) (timeout e) (corrField e)
     (startPattern e) (endPattern e) m (stats e).

Definition with_stats (e : t) (s : RuleStats) : t :=
  mk (name e) (description e) (timeout e) (corrField e)
     (startPattern e) (endPattern e) (openSequences e) s.

(** The first [if] of [Process]: the start pattern.  [None] is the panic
    of [matches[e.corrField]] on a negative index. *)
Definition processStart (e : t) (l : ParsedLine) : option t :=
  match FindStringSubmatch (startPattern e) (Raw l) with
  | Some matches =>
      if corrField e <=? len matches - 1 then
        corrID ← index matches (corrField e);
        Some (with_stats
                (with_open e
                   (<[corrID := {| trkCorrelationID := corrID;
                                   startTime := Timestamp l;
                                   trkSource := Source l;
                                   trkLineNum := LineNum l |}]>
                      (openSequences e)))
                (matchedOne (stats e)))
      else Some e
  | None => Some e
  end.

(** The second [if] of [Process]: the end pattern. *)
Definition processEnd (e : t) (l : ParsedLine) : option t :=
  match FindStringSubmatch (endPattern e) (Raw l) with
  | Some matches =>
      if corrField e <=? len matches - 1 then
        corrID ← index matches (corrField e);
        match openSequences e !! corrID with
        | Some tracker =>
            let elapsed := Sub (Timestamp l) (startTime tracker) in
            if elapsed <=? timeout e then
              Some (with_open e (delete corrID (openSequences e)))
            else Some e (* leave it open so it's reported as missing *)
        | None => Some e
        end
      else Some e
  | None => Some e
  end.

Definition Process (e : t) (l : ParsedLine) : option t :=
  let e := with_stats e (processedOne (stats e)) in
  e ← processStart e l;
  processEnd e l.

Definition issueOf (e : t) (tracker : sequenceTracker) : Issue :=
  {| Type_ := IssueTypeMissingEnd;
     Description :=
       Sprintf "Sequence started but not completed within %s"
         [FDuration (timeout e)];
     Context :=
       {| CorrelationID := trkCorrelationID tracker;
          ctxStartTime := startTime tracker;
          ctxEndTime := zeroTime;
          ctxSource := trkSource tracker;
          ctxLineNum := trkLineNum tracker;
          Timeout := timeout e;
          ActualGap := 0; ExpectedGap := 0;
          Occurrences := 0; MinRequired := 0 |} |}.

(** [Finalize]: [for _, tracker := range e.openSequences] visits the map
    in the order [ord] picks. *)
Definition Finalize (ord : MapRange sequenceTracker) (now : Time) (e : t)
  : RuleResult * t :=
  let e := with_stats e (endedAt now (stats e)) in
  ({| RuleName := name e;
      RuleType_ := RuleTypeSequence;
      RuleDescription := description e;
      Issues := map (fun kv => issueOf e (snd kv))
                    (visit ord (map_to_list (openSequences e)));
      Stats := stats e |}, e).

Definition Reset (e : t) : t :=
  with_stats (with_open e ∅) zeroStats.

End SequenceEngine.

(** ** The periodic engine (periodic.go) *)

Record periodicMatch := mkPeriodicMatch {
  pmTimestamp : Time;
  pmSource : string;
  pmLineNum : Z
}.

Module PeriodicEngine.

Record t := mk {
  name : string;
  description : string;
  maxGap : Duration;
  minOccurrences : Z;
  pattern : Regexp;
  matches : list periodicMatch;
  stats : RuleStats
}.

Definition with_matches (e : t) (ms : list periodicMatch) : t :=
  mk (name e) (description e) (maxGap e) (minOccurrences e) (pattern e)
     ms (stats e).

Definition with_stats (e : t) (s : RuleStats) : t :=
  mk (name e) (description e) (maxGap e) (minOccurrences e) (pattern e)
     (matches e) s.

Definition Process (e : t) (l : ParsedLine) : t :=
  let e := with_stats e (processedOne (stats e)) in
  if MatchString (pattern e) (Raw l) then
    with_stats
      (with_matches e
         (matches e ++ [{| pmTimestamp := Timestamp l;
                           pmSource := Source l;
                           pmLineNum := LineNum l |}]))
      (matchedOne (stats e))
  else e.

Definition gapIssue (e : t) (prev curr : periodicMatch) : Issue :=
  let gap := Sub (pmTimestamp curr) (pmTimestamp prev) in
  {| Type_ := IssueTypeGapExceeded;
     Description :=
       Sprintf "Gap of %s between occurrences (max allowed: %s)"
         [FDuration (Duration_Round gap Second); FDuration (maxGap e)];
     Context :=
       {| CorrelationID := "";
          ctxStartTime := pmTimestamp prev;
          ctxEndTime := pmTimestamp curr;
          ctxSource := pmSource prev;
          ctxLineNum := pmLineNum prev;
          Timeout := 0;
          ActualGap := gap;
          ExpectedGap := maxGap e;
          Occurrences := 0; MinRequired := 0 |} |}.

(** [for i := 1; i < len(e.matches); i++ { ... }]; [fuel] bounds the
    number of iterations. *)
Fixpoint gapLoop (fuel : nat) (e : t) (i : nat) (issues : list Issue)
  : list Issue :=
  match fuel with
  | O => issues
  | S fuel' =>
      if (i <? length (matches e))%nat then
        match matches e !! (i - 1)%nat, matches e !! i with
        | Some prev, Some curr =>
            let gap := Sub (pmTimestamp curr) (pmTimestamp prev) in
            gapLoop fuel' e (S i)
              (if maxGap e <? gap then issues ++ [gapIssue e prev curr]
               else issues)
        | _, _ => issues
        end
      else issues
  end.

Definition belowMinIssue (e : t) : Issue :=
  {| Type_ := IssueTypeBelowMinOccurrences;
     Description :=
       Sprintf "Only %d occurrences found (minimum required: %d)"
         [FInt (len (matches e)); FInt (minOccurrences e)];
     Context :=
       {| CorrelationID := "";
          ctxStartTime := zeroTime; ctxEndTime := zeroTime;
          ctxSource := ""; ctxLineNum := 0;
          Timeout := 0; ActualGap := 0; ExpectedGap := 0;
          Occurrences := len (matches e);
          MinRequired := minOccurrences e |} |}.

Definition Finalize (now : Time) (e : t) : RuleResult * t :=
  let e := with_stats e (endedAt now (stats e)) in
  let issues := gapLoop (length (matches e)) e 1 [] in
  let issues :=
    if (0 <? minOccurrences e) && (len (matches e) <? minOccurrences e)
    then issues ++ [belowMinIssue e] else issues in
  ({| RuleName := name e;
      RuleType_ := RuleTypePeriodic;
      RuleDescription := description e;
      Issues := issues;
      Stats := stats e |}, e).

Definition Reset (e : t) : t :=
  with_stats (with_matches e []) zeroStats.

End PeriodicEngine.

(** ** pkg/config: what validation does to a conditional rule's timeout *)

Definition DefaultTimeout : Duration := 60 * Second.
Definition DefaultMaxGap : Duration := 5 * Minute.

(** [if rule.Timeout <= 0 { rule.Timeout = DefaultTimeout }], the step of
    [validateSequenceRule] and [validateConditionalRule] that every rule
    passes before an engine is built from it. *)
Definition validatedTimeout (timeout : Duration) : Duration :=
  if timeout <=? 0 then DefaultTimeout else timeout.

(** ** The analyzer *)

(** The [RuleEngine] interface, with its three implementations. *)
Inductive RuleEngine :=
| Sequence (e : SequenceEngine.t)
| Periodic (e : PeriodicEngine.t)
| Conditional (e : ConditionalEngine.t).

Module RuleEngine.

Definition Name (e : RuleEngine) : string :=
  match e with
  | Sequence e => SequenceEngine.name e
  | Periodic e => PeriodicEngine.name e
  | Conditional e => ConditionalEngine.name e
  end.

Definition Type_ (e : RuleEngine) : RuleType :=
  match e with
  | Sequence _ => RuleTypeSequence
  | Periodic _ => RuleTypePeriodic
  | Conditional _ => RuleTypeConditional
  end.

(** [None] is a run-time panic. *)
Definition Process (e : RuleEngine) (l : ParsedLine) : option RuleEngine :=
  match e with
  | Sequence e => Sequence <$> SequenceEngine.Process e l
  | Periodic e => Some (Periodic (PeriodicEngine.Process e l))
  | Conditional e => Some (Conditional (ConditionalEngine.Process e l))
  end.

Definition Finalize (ord : MapRange sequenceTracker) (now : Time)
    (e : RuleEngine)
  : RuleResult * RuleEngine :=
  match e with
  | Sequence e =>
      let '(r, e') := SequenceEngine.Finalize ord now e in (r, Sequence e')
  | Periodic e =>
      let '(r, e') := PeriodicEngine.Finalize now e in (r, Periodic e')
  | Conditional e =>
      let '(r, e') := ConditionalEngine.Finalize now e in (r, Conditional e')
  end.

Definition Reset (e : RuleEngine) : RuleEngine :=
  match e with
  | Sequence e => Sequence (SequenceEngine.Reset e)
  | Periodic e => Periodic (PeriodicEngine.Reset e)
  | Conditional e => Conditional (ConditionalEngine.Reset e)
  end.

End RuleEngine.

Record TimeRange := mkTimeRange {
  Start : Time;
  End_ : Time
}.

Record Analyzer := mkAnalyzer {
  engines : list RuleEngine;
  timeRange : option TimeRange
}.

Record AnalysisMetadata := mkAnalysisMetadata {
  mdSources : list string;
  mdTimeRange : option TimeRange;
  mdStartTime : Time;
  mdEndTime : Time;
  mdLinesProcessed : Z
}.

Record AnalysisResult := mkAnalysisResult {
  Results : list RuleResult;
  Metadata : AnalysisMetadata
}.

(** How a call of [Analyze] ends. *)
Inductive AnalyzeOutcome :=
| Analyzed (r : AnalysisResult)
| AnalyzeError (err : Text)
| AnalyzePanic.

(** A [context.Context] as [Analyze] sees it: whether [ctx.Done()] is closed
    at the check that opens the [k]-th iteration of the loop. *)
Definition Context_ := nat -> bool.

(** The wall clock: the value of the [k]-th call of [time.Now()]. *)
Definition Clock := nat -> Time.

Module Analyzer.

(** [for _, engine := range a.engines { engine.Process(ctx, line) }] *)
Fixpoint processAll (es : list RuleEngine) (l : ParsedLine)
  : option (list RuleEngine) :=
  match es with
  | [] => Some []
  | e :: es' =>
      e' ← RuleEngine.Process e l;
      es'' ← processAll es' l;
      Some (e' :: es'')
  end.

(** [for _, engine := range a.engines { engine.Finalize(ctx) }]; the
    [k]-th engine reads the clock at [first + k]. *)
Fixpoint finalizeAll (ord : MapRange sequenceTracker) (clock : Clock)
    (first : nat) (es : list RuleEngine) : list RuleResult * list RuleEngine :=
  match es with
  | [] => ([], [])
  | e :: es' =>
      let '(r, e') := RuleEngine.Finalize ord (clock first) e in
      let '(rs, es'') := finalizeAll ord clock (S first) es' in
      (r :: rs, e' :: es'')
  end.

(** [line.Timestamp.Before(a.timeRange.Start) || line.Timestamp.After(a.timeRange.End)] *)
Definition filteredOut (tr : option TimeRange) (l : ParsedLine) : bool :=
  match tr with
  | Some r => Before (Timestamp l) (Start r) || After (Timestamp l) (End_ r)
  | None => false
  end.

(** State of the main loop of [Analyze]. *)
Record loopState := mkLoopState {
  lsEngines : list RuleEngine;
  lsSourcesMap : gset string;
  lsSources : list string;
  lsLinesProcessed : Z
}.

Inductive loopEnd :=
| AtEOF (s : loopState)
| Cancelled (s : loopState)
| ReadError (err : string) (s : loopState)
| Panicked.

(** The [for { ... }] loop of [Analyze], at its [k]-th iteration. *)
Fixpoint loop (ctx : Context_) (tr : option TimeRange) (k : nat)
    (src : LogSource) (s : loopState) : loopEnd :=
  if ctx k then Cancelled s
  else
    match src with
    | [] => AtEOF s
    | OErr err :: _ => ReadError err s
    | OLine l :: src' =>
        let s :=
          if decide (Source l ∈ lsSourcesMap s) then s
          else {| lsEngines := lsEngines s;
                  lsSourcesMap := {[Source l]} ∪ lsSourcesMap s;
                  lsSources := lsSources s ++ [Source l];
                  lsLinesProcessed := lsLinesProcessed s |} in
        if filteredOut tr l then loop ctx tr (S k) src' s
        else
          match processAll (lsEngines s) l with
          | None => Panicked
          | Some es =>
              loop ctx tr (S k) src'
                {| lsEngines := es;
                   lsSourcesMap := lsSourcesMap s;
                   lsSources := lsSources s;
                   lsLinesProcessed := incr (lsLinesProcessed s) |}
          end
    end.

(** [Analyze]: the outcome and the analyzer with its engines as the call
    leaves them. *)
Definition Analyze (ord : MapRange sequenceTracker) (clock : Clock)
    (ctx : Context_)
    (a : Analyzer) (src : LogSource) : AnalyzeOutcome * Analyzer :=
  let start := clock O in
  let es := map RuleEngine.Reset (engines a) in
  match loop ctx (timeRange a) 0 src
          {| lsEngines := es; lsSourcesMap := ∅; lsSources := [];
             lsLinesProcessed := 0 |} with
  | Panicked => (AnalyzePanic, a)
  | Cancelled s =>
      (AnalyzeError (Plain "context canceled"),
       {| engines := lsEngines s; timeRange := timeRange a |})
  | ReadError err s =>
      (AnalyzeError (Sprintf "reading log source: %w" [FString err]),
       {| engines := lsEngines s; timeRange := timeRange a |})
  | AtEOF s =>
      let '(rs, es') := finalizeAll ord clock 1 (lsEngines s) in
      (Analyzed
         {| Results := rs;
            Metadata :=
              {| mdSources := lsSources s;
                 mdTimeRange := timeRange a;
                 mdStartTime := start;
                 mdEndTime := clock (S (length (lsEngines s)));
                 mdLinesProcessed := lsLinesProcessed s |} |},
       {| engines := es'; timeRange := timeRange a |})
  end.

End Analyzer.

(** ** Library functions of Go used by the extractor and the detector *)

(** [strings.TrimSpace] and the calendar part of [time.Parse] are taken as
    given. *)
Class GoLibrary := {
  (** [strings.TrimSpace] *)
  TrimSpace : string -> string;
  (** [time.Parse(layout, value)] for a layout that holds at least one
      element of the reference time; [None] is a parse error. *)
  parseCalendar : string -> string -> option Time
}.

(** [strings.HasPrefix] *)
Definition HasPrefix (s p : string) : bool := String.prefix p s.

(** The bytes at which [time.Parse] may find an element of the reference time
    in a layout ([nextStdChunk]), and the space, which it matches loosely. *)
Definition layoutByte (c : ascii) : bool :=
  existsb (Ascii.eqb c)
    ["J"; "M"; "0"; "1"; "2"; "3"; "4"; "5"; "P"; "p"; "-"; "Z"; "."; ","; " "]%char.

Fixpoint literalLayout (layout : string) : bool :=
  match layout with
  | EmptyString => true
  | String "_"%char (String c _ as rest) =>
      negb (Ascii.eqb c "2") && negb (Ascii.eqb c "_") && literalLayout rest
  | String c rest => negb (layoutByte c) && literalLayout rest
  end.

(** January 1 of year 0, 00:00:00 UTC: what [time.Parse] returns when the
    layout sets no field. *)
Definition yearZero : Time := time_Unix (-62167219200).

(** [time.Parse].  A layout without any element of the reference time is
    plain text that the value has to repeat. *)
Definition time_Parse `{GoLibrary} (layout value : string) : option Time :=
  if literalLayout layout then
    if String.eqb value layout then Some yearZero else None
  else parseCalendar layout value.

(** *** strconv.ParseInt(s, 10, 64) *)

Inductive NumError := ErrSyntax | ErrRange.

Definition digitOf (c : ascii) : option Z :=
  let n := Z.of_N (N_of_ascii c) in
  if (48 <=? n) && (n <=? 57) then Some (n - 48) else None.

Definition maxUint64 : Z := 2 ^ 64 - 1.

(** The loop of [ParseUint] in base 10 with [bitSize] 64. *)
Fixpoint ParseUint_loop (s : string) (n : Z) : Z + NumError :=
  match s with
  | EmptyString => inl n
  | String c s' =>
      match digitOf c with
      | None => inr ErrSyntax
      | Some d =>
          if maxUint64 / 10 + 1 <=? n then inr ErrRange (* n*base overflows *)
          else
            let n1 := n * 10 + d in
            if maxUint64 <? n1 then inr ErrRange (* n+d overflows *)
            else ParseUint_loop s' n1
      end
  end.

Definition ParseUint (s : string) : Z + NumError :=
  match s with
  | EmptyString => inr ErrSyntax
  | _ => ParseUint_loop s 0
  end.

Definition ParseInt (s : string) : Z + NumError :=
  match s with
  | EmptyString => inr ErrSyntax
  | String c s' =>
      let neg := Ascii.eqb c "-" in
      let s1 := if Ascii.eqb c "+" || Ascii.eqb c "-" then s' else s in
      match ParseUint s1 with
      | inr e => inr e
      | inl un =>
          let cutoff := 2 ^ 63 in
          if negb neg && (cutoff <=? un) then inr ErrRange
          else if neg && (cutoff <? un) then inr ErrRange
          else inl (if neg then - un else un)
      end
  end.

(** ** pkg/parser: the timestamp extractor *)

Record TimestampExtractor := mkTimestampExtractor {
  pattern : Regexp;
  layout : string
}.

Module TimestampExtractor.

(** [Extract]; [None] is the returned error. *)
Definition Extract `{GoLibrary} (e : TimestampExtractor) (l : string)
  : option Time :=
  match FindStringSubmatch (pattern e) l with
  | Some (_ :: tsStr :: _) => time_Parse (layout e) tsStr
  | _ => None (* len(matches) < 2 *)
  end.

End TimestampExtractor.

(** ** pkg/detector *)

Record TimestampFormat := mkTimestampFormat {
  Name : string;
  Pattern : Regexp;
  PatternStr : string;
  Layout : string;
  Examples : list string;
  Ambiguous : bool
}.

(** [Confidence] is the [float64] quotient of two small integers; it is kept
    as the exact rational it rounds. *)
Record FormatMatch := mkFormatMatch {
  Format : TimestampFormat;
  Confidence : Qc;
  MatchCount : Z;
  SampleLine : string;
  ParsedTime : Time
}.

Record DetectionResult := mkDetectionResult {
  Matches : list FormatMatch;
  SampledLines : Z;
  ParsedLines : Z;
  AmbiguityNote : string
}.

Record formatStats := mkFormatStats {
  fsFormat : TimestampFormat;
  matchCount : Z;
  sampleLine : string;
  parsedTime : Time
}.

(** [sort.Slice] is not stable: it returns the slice rearranged, in an order
    that the comparison alone does not fix. *)
Record SliceSort (A : Type) := mkSliceSort {
  sortSlice : (A -> A -> bool) -> list A -> list A;
  sortSlice_perm : forall less l, sortSlice less l ≡ₚ l
}.
Arguments mkSliceSort {A} _ _.
Arguments sortSlice {A} _ _ _.
Arguments sortSlice_perm {A} _ _ _.

Record Detector := mkDetector {
  formats : list TimestampFormat;
  sampleSize : Z
}.

Module Detector.

Definition parseTimestamp `{GoLibrary} (tsStr layout : string)
  : option Time :=
  if String.eqb layout "UNIX_SECONDS" then
    match ParseInt tsStr with
    | inr _ => None
    | inl secs =>
        (* Sanity check: reasonable Unix timestamp range (1970-2100) *)
        if (secs <? 0) || (4102444800 <? secs) then None
        else Some (time_Unix secs)
    end
  else if String.eqb layout "UNIX_MILLIS" then
    match ParseInt tsStr with
    | inr _ => None
    | inl millis =>
        let secs := Z.quot millis 1000 in
        if (secs <? 0) || (4102444800 <? secs) then None
        else Some (time_UnixMilli millis)
    end
  else time_Parse layout tsStr.

(** [line == "" || strings.HasPrefix(line, "#")] on the trimmed line. *)
Definition skipped (trimmed : string) : bool :=
  String.eqb trimmed "" || HasPrefix trimmed "#".

(** The body of the inner loop of [DetectFromLines] for one format. *)
Definition tryFormat `{GoLibrary} (l : string)
    (stats : gmap string formatStats) (format : TimestampFormat)
  : gmap string formatStats :=
  match FindStringSubmatch (Pattern format) l with
  | Some (_ :: tsStr :: _) =>
      match parseTimestamp tsStr (Layout format) with
      | None => stats
      | Some parsed =>
          let key := Name format in
          let s := match stats !! key with
                   | Some s => s
                   | None => {| fsFormat := format; matchCount := 0;
                                sampleLine := l; parsedTime := parsed |}
                   end in
          <[key := {| fsFormat := fsFormat s;
                      matchCount := incr (matchCount s);
                      sampleLine := sampleLine s;
                      parsedTime := parsedTime s |}]> stats
      end
  | _ => stats (* len(matches) < 2 *)
  end.

(** The body of the outer loop for one line. *)
Definition tryLine `{GoLibrary} (d : Detector)
    (stats : gmap string formatStats) (l : string)
  : gmap string formatStats :=
  let l := TrimSpace l in
  if skipped l then stats
  else foldl (tryFormat l) stats (formats d).

Definition collect `{GoLibrary} (d : Detector) (lines : list string)
  : gmap string formatStats :=
  foldl (tryLine d) ∅ lines.

Definition toMatch (total : Z) (s : formatStats) : FormatMatch :=
  {| Format := fsFormat s;
     Confidence := (Qc_of_Z (matchCount s) / Qc_of_Z total)%Qc;
     MatchCount := matchCount s;
     SampleLine := sampleLine s;
     ParsedTime := parsedTime s |}.

(** The comparison handed to [sort.Slice]. *)
Definition better (a b : FormatMatch) : bool :=
  if negb (bool_decide (Confidence a = Confidence b)) then
    bool_decide (Confidence b < Confidence a)%Qc
  else len (list_ascii_of_string (PatternStr (Format b)))
       <? len (list_ascii_of_string (PatternStr (Format a))).

Definition dquote : string := String (ascii_of_nat 34) EmptyString.

Definition ambiguityNote : string :=
  "This format has date ordering ambiguity (MM/DD vs DD/MM). " ++
  "Verify the layout matches your log format. " ++
  "For European format (DD/MM/YYYY), use layout: " ++
  dquote ++ "02/01/2006 15:04:05" ++ dquote.

Definition DetectFromLines `{GoLibrary} (ord : MapRange formatStats)
    (srt : SliceSort FormatMatch) (d : Detector) (lines : list string)
  : DetectionResult :=
  match lines with
  | [] => {| Matches := []; SampledLines := 0; ParsedLines := 0;
             AmbiguityNote := "" |}
  | _ =>
      let stats := collect d lines in
      let ms := map (fun kv => toMatch (len lines) (snd kv))
                    (visit ord (map_to_list stats)) in
      let ms := sortSlice srt better ms in
      {| Matches := ms;
         SampledLines := len lines;
         ParsedLines := match ms with m :: _ => MatchCount m | [] => 0 end;
         AmbiguityNote :=
           match ms with
           | m :: _ => if Ambiguous (Format m) then ambiguityNote else ""
           | [] => ""
           end |}
  end.

(** The loop of [sampleFile] over the lines of the file:
    [for scanner.Scan() && len(lines) < d.sampleSize]. *)
Fixpoint sampleLoop `{GoLibrary} (d : Detector) (file lines : list string)
  : list string :=
  match file with
  | [] => lines
  | l :: file' =>
      if len lines <? sampleSize d then
        let trimmed := TrimSpace l in
        if negb (String.eqb trimmed "") && negb (HasPrefix trimmed "#")
        then sampleLoop d file' (lines ++ [l])
        else sampleLoop d file' lines
      else lines
  end.

(** [sampleFile] on a file that opens and reads without error. *)
Definition sampleFile `{GoLibrary} (d : Detector) (file : list string)
  : list string :=
  sampleLoop d file [].

End Detector.

(** ** Patterns and inputs used in the examples

    The functions computed by the patterns of the repository's tests: a
    literal such as [HEARTBEAT], and a literal followed by a captured word
    such as [START id=(\w+)]. *)

Definition isWord (c : ascii) : bool :=
  let n := N_of_ascii c in
  ((48 <=? n) && (n <=? 57) || (65 <=? n) && (n <=? 90) ||
   (97 <=? n) && (n <=? 122) || (n =? 95))%N.

Fixpoint takeWord (s : string) : string :=
  match s with
  | String c r => if isWord c then String c (takeWord r) else EmptyString
  | EmptyString => EmptyString
  end.

Definition afterPrefix (p s : string) : string :=
  String.substring (String.length p) (String.length s - String.length p) s.

(** [regexp.MustCompile(p + `(\w+)`)] for a literal [p]. *)
Fixpoint findCapture (p s : string) : option (list string) :=
  let here :=
    if String.prefix p s then
      match takeWord (afterPrefix p s) with
      | EmptyString => None
      | w => Some [(p ++ w)%string; w]
      end
    else None in
  match here, s with
  | Some r, _ => Some r
  | None, String _ r => findCapture p r
  | None, EmptyString => None
  end.

Definition rxCapture (p : string) : Regexp := mkRegexp (findCapture p).

(** [regexp.MustCompile(p)] for a literal [p]. *)
Fixpoint findLiteral (p s : string) : option (list string) :=
  if String.prefix p s then Some [p]
  else match s with
       | String _ r => findLiteral p r
       | EmptyString => None
       end.

Definition rxLiteral (p : string) : Regexp := mkRegexp (findLiteral p).

Fixpoint allDigits (s : string) : bool :=
  match s with
  | EmptyString => true
  | String c r =>
      match digitOf c with Some _ => allDigits r | None => false end
  end.

(** The pattern of the catalog's "Unix timestamp (seconds)" format,
    [^(\d{10})(?:\s|$|\])], as a function. *)
Definition findUnixSeconds (s : string) : option (list string) :=
  let ts := String.substring 0 10 s in
  if (String.length ts =? 10)%nat && allDigits ts then
    match String.get 10 s with
    | None => Some [ts; ts]
    | Some c =>
        if existsb (Ascii.eqb c) [" "; "009"; "010"; "011"; "012"; "013"; "]"]%char
        then Some [(ts ++ String c EmptyString)%string; ts]
        else None
    end
  else None.

Definition rxUnixSeconds : Regexp := mkRegexp findUnixSeconds.

(** Seconds after 2024-01-15 10:00:00 UTC, the base time of the tests. *)
Definition baseTime : Time := time_Unix 1705312800.
Definition at_ (secs : Z) : Time := baseTime + secs * Second.

Definition mkLine (raw : string) (secs : Z) (n : Z) : ParsedLine :=
  {| Raw := raw; Timestamp := at_ secs; Source := "test.log"; LineNum := n |}.

(** The identity traversal and the reversed one. *)
Definition inOrder {V} : MapRange V :=
  mkMapRange (fun l => l) (fun l => reflexivity l).

Definition reversed {V} : MapRange V :=
  mkMapRange (@rev (string * V)) (fun l => symmetry (Permutation_rev l)).


(** ** Vocabulary of the statements *)

(** The consecutive pairs of a list. *)
Definition consecutive {A} (l : list A) : list (A * A) := zip l (tail l).

(** How many elements of a list satisfy [p]. *)
Definition count {A} (p : A -> bool) (l : list A) : nat :=
  length (List.filter p l).

Definition isGapExceeded (i : Issue) : bool :=
  match Type_ i with IssueTypeGapExceeded => true | _ => false end.

Definition isBelowMinOccurrences (i : Issue) : bool :=
  match Type_ i with IssueTypeBelowMinOccurrences => true | _ => false end.

Definition isMissingConsequence (i : Issue) : bool :=
  match Type_ i with IssueTypeMissingConsequence => true | _ => false end.

(** Every open sequence is stored under its own correlation id, as
    [Process] (and [ImportState]) store them. *)
Definition keyed (e : SequenceEngine.t) : Prop :=
  forall id tr, SequenceEngine.openSequences e !! id = Some tr ->
                trkCorrelationID tr = id.

(** The timestamp a heap item is ordered by. *)
Definition ts (x : heapItem) : Time := Timestamp (line x).

(** The heap order on the first [n] elements: no element is earlier than
    its parent, the element at index [(k - 1) / 2]. *)
Definition heapOrderedUpto (n : nat) (h : lineHeap) : Prop :=
  forall k x p, (0 < k < n)%nat ->
    h !! k = Some x -> h !! ((k - 1) / 2)%nat = Some p -> ts p <= ts x.

Definition heapOrdered (h : lineHeap) : Prop := heapOrderedUpto (length h) h.

(** The heap order but for the element at [j], which may be earlier than
    its parent; its children are no earlier than its parent.  This is what
    holds while [heap.up] moves the element at [j] towards the root. *)
Definition orderedButUp (h : lineHeap) (j : nat) : Prop :=
  (forall k x p, (0 < k < length h)%nat -> k <> j ->
     h !! k = Some x -> h !! ((k - 1) / 2)%nat = Some p -> ts p <= ts x) /\
  (forall c x g, (0 < j)%nat -> (0 < c < length h)%nat ->
     ((c - 1) / 2)%nat = j ->
     h !! c = Some x -> h !! ((j - 1) / 2)%nat = Some g -> ts g <= ts x).

(** The heap order on the first [n] elements but for the children of [i],
    which may be earlier than it; they are no earlier than the parent of
    [i].  This is what holds while [heap.down] moves the element at [i]
    away from the root. *)
Definition orderedButDown (h : lineHeap) (i n : nat) : Prop :=
  (n <= length h)%nat /\
  (forall k x p, (0 < k < n)%nat -> ((k - 1) / 2)%nat <> i ->
     h !! k = Some x -> h !! ((k - 1) / 2)%nat = Some p -> ts p <= ts x) /\
  (forall c x g, (0 < i)%nat -> (0 < c < n)%nat ->
     ((c - 1) / 2)%nat = i ->
     h !! c = Some x -> h !! ((i - 1) / 2)%nat = Some g -> ts g <= ts x).

(** The value of a string of decimal digits, read after [acc]; [None] when
    some byte is not a digit. *)
Fixpoint digitsValue (s : string) (acc : Z) : option Z :=
  match s with
  | EmptyString => Some acc
  | String c r =>
      match digitOf c with
      | Some d => digitsValue r (acc * 10 + d)
      | None => None
      end
  end.

(** A signed decimal integer: an optional sign, then one digit or more. *)
Definition signedDecimal (s : string) : option Z :=
  match s with
  | EmptyString => None
  | String c r =>
      if Ascii.eqb c "-" then
        match r with
        | EmptyString => None
        | _ => Z.opp <$> digitsValue r 0
        end
      else if Ascii.eqb c "+" then
        match r with
        | EmptyString => None
        | _ => digitsValue r 0
        end
      else digitsValue s 0
  end.

(** The issues of a rule that has been offered no record. *)
Definition issuesOfIdle (e : RuleEngine) : list Issue :=
  match e with
  | Periodic p =>
      if 0 <? PeriodicEngine.minOccurrences p
      then [PeriodicEngine.belowMinIssue (PeriodicEngine.Reset p)] else []
  | _ => []
  end.

(** The state a loop of [Analyze] ends with, when it does not panic. *)
Definition endState (r : Analyzer.loopEnd) : option Analyzer.loopState :=
  match r with
  | Analyzer.AtEOF s | Analyzer.Cancelled s | Analyzer.ReadError _ s => Some s
  | Analyzer.Panicked => None
  end.

(** A source that never fails. *)
Definition neverFails (src : LogSource) : Prop :=
  Forall (fun o => match o with OLine _ => True | OErr _ => False end) src.

(** Two results of one rule that agree on everything but the readings of the
    clock and, for a sequence rule, the order of the issues. *)
Definition sameFindings (r1 r2 : RuleResult) : Prop :=
  RuleName r1 = RuleName r2 /\
  RuleType_ r1 = RuleType_ r2 /\
  RuleDescription r1 = RuleDescription r2 /\
  LinesProcessed (Stats r1) = LinesProcessed (Stats r2) /\
  LinesMatched (Stats r1) = LinesMatched (Stats r2) /\
  StartTime (Stats r1) = StartTime (Stats r2) /\
  match RuleType_ r1 with
  | RuleTypeSequence => Issues r1 ≡ₚ Issues r2
  | _ => Issues r1 = Issues r2
  end.

(** Whether the gap between two matches exceeds [maxGap]. *)
Definition exceeds (e : PeriodicEngine.t) (p : periodicMatch * periodicMatch)
  : bool :=
  PeriodicEngine.maxGap e <? Sub (pmTimestamp p.2) (pmTimestamp p.1).

(** The issues of the pairs of [ps] that exceed [maxGap]. *)
Definition gapIssues (e : PeriodicEngine.t)
    (ps : list (periodicMatch * periodicMatch)) : list Issue :=
  map (fun p => PeriodicEngine.gapIssue e p.1 p.2) (List.filter (exceeds e) ps).


(** ** Rules and records of the examples *)




(** Scenario S3: match [HEARTBEAT], max-gap 5 min, min-occurrences 10. *)
Definition periodicS3 : PeriodicEngine.t :=
  PeriodicEngine.mk "s3" "" (5 * Minute) 10 (rxLiteral "HEARTBEAT") []
    zeroStats.

(** The engine of S3 after heartbeats at 10:00, 10:02 and 10:15. *)
Definition periodicS3Fed : PeriodicEngine.t :=
  foldl PeriodicEngine.Process periodicS3
    [mkLine "HEARTBEAT a" 0 1; mkLine "HEARTBEAT b" 120 2;
     mkLine "HEARTBEAT c" 900 3].

(** Scenario S1: start [START id=(\w+)], end [END id=(\w+)], correlation
    group 1, timeout 60 s. *)
Definition seqS1 : SequenceEngine.t :=
  SequenceEngine.mk "s1" "" (60 * Second) 1
    (rxCapture "START id=") (rxCapture "END id=") ∅ zeroStats.

(** The engine of S1 holding the sequence [abc] opened at 10:00:00. *)
Definition seqS1Open : SequenceEngine.t :=
  SequenceEngine.mk "s1" "" (60 * Second) 1
    (rxCapture "START id=") (rxCapture "END id=")
    {[ "abc" := {| trkCorrelationID := "abc"; startTime := at_ 0;
                   trkSource := "test.log"; trkLineNum := 1 |} ]}
    (processedOne (matchedOne zeroStats)).

(** An analyzer with the rule of S3 and a time range whose start lies after
    its end, and three heartbeats. *)
Definition invertedRange : Analyzer :=
  {| engines := [Periodic periodicS3];
     timeRange := Some {| Start := at_ 10; End_ := at_ 0 |} |}.

Definition heartbeats : LogSource :=
  [OLine (mkLine "HEARTBEAT a" 0 1); OLine (mkLine "HEARTBEAT b" 5 2);
   OLine (mkLine "HEARTBEAT c" 10 3)].

Definition neverCancelled : Context_ := fun _ => false.
Definition frozenClock : Clock := fun _ => at_ 3600.

(** An analyzer with the rule of S1, and two sequences that never end. *)
Definition twoSequences : Analyzer :=
  {| engines := [Sequence seqS1]; timeRange := None |}.

Definition twoStarts : LogSource :=
  [OLine (mkLine "START id=a" 0 1); OLine (mkLine "START id=b" 1 2)].

(** The extractor that a configuration with the catalog's Unix-seconds
    pattern and the layout [UNIX_SECONDS] gives. *)
Definition unixExtractor : TimestampExtractor :=
  {| pattern := rxUnixSeconds; layout := "UNIX_SECONDS" |}.

(** [strings.TrimSpace] on ASCII text. *)
Definition isSpace (c : ascii) : bool :=
  existsb (Ascii.eqb c) [" "; "009"; "010"; "011"; "012"; "013"]%char.

Fixpoint dropSpaces (l : list ascii) : list ascii :=
  match l with
  | c :: r => if isSpace c then dropSpaces r else l
  | [] => []
  end.

Definition asciiTrimSpace (s : string) : string :=
  string_of_list_ascii
    (rev (dropSpaces (rev (dropSpaces (list_ascii_of_string s))))).

(** The library of the examples; they use no calendar layout. *)
Definition exampleLibrary : GoLibrary :=
  {| TrimSpace := asciiTrimSpace; parseCalendar := fun _ _ => None |}.

(** The catalog's format for Unix seconds, and a detector that knows it. *)
Definition unixSecondsFormat : TimestampFormat :=
  {| Name := "Unix timestamp (seconds)";
     Pattern := rxUnixSeconds;
     PatternStr := "^(\d{10})(?:\s|$|\])";
     Layout := "UNIX_SECONDS";
     Examples := ["1705315800"];
     Ambiguous := false |}.

Definition unixDetector : Detector :=
  {| formats := [unixSecondsFormat]; sampleSize := 100 |}.

(** A sample with a comment line, as in the test
    [TestDetector_DetectFromLines_SkipsComments]. *)
Definition commentedSample : list string :=
  ["# This is a comment"; "1705315800 Application started"].

Definition stableSort : SliceSort FormatMatch :=
  mkSliceSort (fun _ l => l) (fun _ l => reflexivity l).

(** Records in an order in which no timestamp goes back. *)
Definition chronological (ls : list ParsedLine) : Prop :=
  StronglySorted (fun a b => Timestamp a <= Timestamp b) ls.

(** The state of a merged source once [initHeap] has read every source:
    the heap is ordered, each item is no later than what its source still
    holds, each source is chronological, and a source that is not used up
    has an item in the heap. *)
Definition seeded (m : MergedSource) : Prop :=
  heapOrdered (mheap m) /\
  (forall it, it ∈ mheap m ->
     exists src, sources m !! sourceIdx it = Some src /\
                 Forall (fun l => ts it <= Timestamp l) (records src)) /\
  Forall (fun src => chronological (records src)) (sources m) /\
  (forall i src, sources m !! i = Some src -> src <> [] ->
     exists it, it ∈ mheap m /\ sourceIdx it = i).

(** Scenario S5: two files with interleaved timestamps. *)
Definition fileA : LogSource :=
  [OLine {| Raw := "A first"; Timestamp := at_ 0; Source := "a.log"; LineNum := 1 |};
   OLine {| Raw := "A second"; Timestamp := at_ 2; Source := "a.log"; LineNum := 2 |};
   OLine {| Raw := "A third"; Timestamp := at_ 4; Source := "a.log"; LineNum := 3 |}].

Definition fileB : LogSource :=
  [OLine {| Raw := "B first"; Timestamp := at_ 1; Source := "b.log"; LineNum := 1 |};
   OLine {| Raw := "B second"; Timestamp := at_ 3; Source := "b.log"; LineNum := 2 |}].

(** What a merged source still holds: the items of its heap and the
    outcomes left in the scripts of its sources. *)
Definition pendingOutcomes (srcs : list LogSource) : nat :=
  sum_list (map (fun src : LogSource => length src) srcs).

Definition pending (m : MergedSource) : nat :=
  (length (mheap m) + pendingOutcomes (sources m))%nat.

(** The merged source of S5 after its first record has been pulled. *)
Definition mergedAfterFirst : MergedSource :=
  (MergedSource.Next (NewMergedSource [fileA; fileB])).2.

(** A merged source whose second source fails once its first line has been
    read. *)
Definition mergedFailing : MergedSource :=
  (MergedSource.initHeap
     (NewMergedSource
        [fileA;
         [OLine {| Raw := "B first"; Timestamp := at_ (-1); Source := "b.log";
                   LineNum := 1 |};
          OErr "read error"]])).1.

(** The records the sources have not given yet, source by source. *)
Definition unread (srcs : list LogSource) : list ParsedLine :=
  concat (map records srcs).

(** The records a merged source has still to return. *)
Definition content (m : MergedSource) : list ParsedLine :=
  map line (mheap m) ++ unread (sources m).

(** A merged source that has read every source and met no error: the items
    of the heap carry indices of [sources], a source that is not used up has
    an item in the heap, and no source fails. *)
Definition ready (m : MergedSource) : Prop :=
  (forall it, it ∈ mheap m -> (sourceIdx it < length (sources m))%nat) /\
  (forall i src, sources m !! i = Some src -> src <> [] ->
     exists it, it ∈ mheap m /\ sourceIdx it = i) /\
  Forall neverFails (sources m).

(** ** Vocabulary of the detector's statements *)

(** A line that [sampleFile] keeps: neither blank nor a comment. *)
Definition sampled `{GoLibrary} (l : string) : bool :=
  negb (Detector.skipped (TrimSpace l)).

(** [DetectFromFile] on a file that opens and reads without error; [file]
    holds its lines. *)
Definition DetectFromFile `{GoLibrary} (ord : MapRange formatStats)
    (srt : SliceSort FormatMatch) (d : Detector) (file : list string)
  : DetectionResult :=
  Detector.DetectFromLines ord srt d (Detector.sampleFile d file).

(** The timestamp a format reads off a trimmed line, if it reads one. *)
Definition accepts `{GoLibrary} (format : TimestampFormat) (l : string)
  : option Time :=
  match FindStringSubmatch (Pattern format) l with
  | Some (_ :: tsStr :: _) => Detector.parseTimestamp tsStr (Layout format)
  | _ => None
  end.

(** What a format makes of one line of the input: nothing of a blank line or
    a comment, else the trimmed line with its timestamp. *)
Definition hit `{GoLibrary} (format : TimestampFormat) (line : string)
  : option (string * Time) :=
  let l := TrimSpace line in
  if Detector.skipped l then None
  else (fun parsed => (l, parsed)) <$> accepts format l.

(** The lines of the input a format reads, in order. *)
Definition hits `{GoLibrary} (format : TimestampFormat) (lines : list string)
  : list (string * Time) :=
  omap (hit format) lines.

(** The match for a format that reads at least one of the lines: the count
    of the lines it reads over the number of all the lines, and the first
    line it reads as the sample. *)
Definition matchOf `{GoLibrary} (lines : list string)
    (format : TimestampFormat) : option FormatMatch :=
  match hits format lines with
  | [] => None
  | (l, parsed) :: _ =>
      Some {| Format := format;
              Confidence := (Qc_of_Z (len (hits format lines))
                             / Qc_of_Z (len lines))%Qc;
              MatchCount := len (hits format lines);
              SampleLine := l;
              ParsedTime := parsed |}
  end.

(** The entry of [stats] for a format once it has read one more line:
    [if stats[key] == nil { stats[key] = &formatStats{...} };
     stats[key].matchCount++]. *)
Definition counted (format : TimestampFormat) (l : string) (parsed : Time)
    (o : option formatStats) : formatStats :=
  let s := default {| fsFormat := format; matchCount := 0;
                      sampleLine := l; parsedTime := parsed |} o in
  {| fsFormat := fsFormat s; matchCount := incr (matchCount s);
     sampleLine := sampleLine s; parsedTime := parsedTime s |}.

(** The entry of [stats] for a format after the lines. *)
Definition statsOf `{GoLibrary} (lines : list string)
    (format : TimestampFormat) : option formatStats :=
  match hits format lines with
  | [] => None
  | (l, parsed) :: _ =>
      Some {| fsFormat := format; matchCount := len (hits format lines);
              sampleLine := l; parsedTime := parsed |}
  end.

(** * Properties *)

(** ** Time *)


(** [Sub] compares with a bound below the largest duration exactly as the
    difference of the two instants does. *)
Lemma Sub_le_iff (t u : Time) (d : Duration) :
  minDuration <= d < maxDuration -> (Sub t u <= d <-> t - u <= d).
Proof.
  unfold Sub, minDuration, maxDuration, minInt64, maxInt64.
  intros Hd.
  destruct (Z.ltb_spec (t - u) (- 2 ^ 63)); [lia |].
  destruct (Z.ltb_spec (2 ^ 63 - 1) (t - u)); lia.
Qed.

Lemma Sub_range (t u : Time) : minDuration <= Sub t u <= maxDuration.
Proof.
  unfold Sub, minDuration, maxDuration, minInt64, maxInt64.
  destruct (Z.ltb_spec (t - u) (- 2 ^ 63)); [lia |].
  destruct (Z.ltb_spec (2 ^ 63 - 1) (t - u)); lia.
Qed.

Lemma validatedTimeout_pos (d : Duration) : 0 < validatedTimeout d.
Proof.
  unfold validatedTimeout, DefaultTimeout, Second.
  destruct (Z.leb_spec d 0); lia.
Qed.

(** ** The conditional engine *)

Section Conditional.

Import ConditionalEngine.




Variable e : ConditionalEngine.t.
Variable corrID : string.
Variable eventTime : Time.






End Conditional.

Section ConditionalClaims.

Import ConditionalEngine.











End ConditionalClaims.

(** ** The periodic engine *)

Section Periodic.

Import PeriodicEngine.

Lemma consecutive_lookup {A} (l : list A) (i : nat) (a b : A) :
  l !! i = Some a -> l !! S i = Some b -> consecutive l !! i = Some (a, b).
Proof.
  intros Ha Hb. unfold consecutive.
  rewrite lookup_zip_with, Ha. simpl. rewrite lookup_tail, Hb. done.
Qed.

Lemma consecutive_length {A} (l : list A) :
  length (consecutive l) = (length l - 1)%nat.
Proof.
  unfold consecutive. rewrite length_zip_with.
  destruct l; simpl length; lia.
Qed.

(** The loop visits the consecutive pairs from pair [i - 1] on. *)
Lemma gapLoop_spec (e : t) (fuel i : nat) (acc : list Issue) :
  (1 <= i)%nat -> (length (matches e) <= fuel + i)%nat ->
  gapLoop fuel e i acc =
  acc ++ gapIssues e (drop (i - 1) (consecutive (matches e))).
Proof.
  revert i acc. induction fuel as [| fuel IH]; intros i acc Hi Hfuel.
  - simpl. rewrite drop_ge, app_nil_r; [done |].
    rewrite consecutive_length. lia.
  - simpl. destruct (Nat.ltb_spec i (length (matches e))) as [Hlt | Hge].
    + destruct (lookup_lt_is_Some_2 (matches e) (i - 1)) as [prev Hprev];
        [lia |].
      destruct (lookup_lt_is_Some_2 (matches e) i) as [curr Hcurr]; [lia |].
      rewrite Hprev, Hcurr.
      assert (consecutive (matches e) !! (i - 1)%nat = Some (prev, curr))
        as Hpair.
      { apply consecutive_lookup; [done |].
        by replace (S (i - 1)) with i by lia. }
      rewrite (drop_S _ _ _ Hpair).
      rewrite IH by lia.
      replace (S i - 1)%nat with (S (i - 1)) by lia.
      unfold gapIssues. simpl. unfold exceeds at 2. simpl.
      destruct (maxGap e <? Sub (pmTimestamp curr) (pmTimestamp prev)).
      * simpl. by rewrite <- app_assoc.
      * done.
    + rewrite drop_ge, app_nil_r; [done |].
      rewrite consecutive_length. lia.
Qed.

Lemma count_app {A} (p : A -> bool) (l k : list A) :
  count p (l ++ k) = (count p l + count p k)%nat.
Proof. unfold count. by rewrite List.filter_app, length_app. Qed.

Lemma count_gapIssues (e : t) (ps : list (periodicMatch * periodicMatch)) :
  count isGapExceeded (gapIssues e ps) = count (exceeds e) ps /\
  count isBelowMinOccurrences (gapIssues e ps) = 0%nat.
Proof.
  unfold gapIssues, count.
  induction (List.filter (exceeds e) ps) as [| p r [IH1 IH2]]; [done |].
  simpl. by rewrite IH1, IH2.
Qed.

(** The issues of [Finalize], independently of the clock. *)
Lemma Periodic_Finalize_issues (e : t) (now : Time) :
  Issues (fst (Finalize now e)) =
  gapIssues e (consecutive (matches e)) ++
  (if (0 <? minOccurrences e) && (len (matches e) <? minOccurrences e)
   then [belowMinIssue e] else []).
Proof.
  unfold Finalize. cbn [fst Issues].
  cbn [matches minOccurrences with_stats].
  rewrite gapLoop_spec by (cbn [matches with_stats]; lia).
  cbn [matches with_stats]. simpl drop. simpl app at 1.
  destruct ((0 <? minOccurrences e) && (len (matches e) <? minOccurrences e));
    [done | by rewrite app_nil_r].
Qed.

(** C5.  [Finalize] of a periodic rule reports, in order, one GapExceeded
    issue for each consecutive pair of recorded matches whose gap is
    strictly greater than max-gap, and nothing for the other pairs; then one
    BelowMinOccurrences issue exactly when a minimum count greater than zero
    is configured and fewer matches were recorded.  So the number of
    GapExceeded issues is the number of pairs over max-gap (none when there
    is at most one match) and the number of BelowMinOccurrences issues is
    one or zero. *)
Theorem periodic_finalize_reports (e : t) (now : Time) :
  let issues := Issues (fst (Finalize now e)) in
  let pairs := consecutive (matches e) in
  let below := (0 <? minOccurrences e) && (len (matches e) <? minOccurrences e) in
  issues =
    map (fun p => gapIssue e p.1 p.2)
        (List.filter
           (fun p => maxGap e <? Sub (pmTimestamp p.2) (pmTimestamp p.1))
           pairs)
    ++ (if below then [belowMinIssue e] else []) /\
  count isGapExceeded issues =
    count (fun p => maxGap e <? Sub (pmTimestamp p.2) (pmTimestamp p.1)) pairs /\
  count isBelowMinOccurrences issues = (if below then 1 else 0)%nat /\
  ((length (matches e) <= 1)%nat -> count isGapExceeded issues = 0%nat).
Proof.
  intros issues pairs below.
  assert (issues = gapIssues e pairs ++ (if below then [belowMinIssue e] else []))
    as Hissues.
  { unfold issues. by rewrite Periodic_Finalize_issues. }
  destruct (count_gapIssues e pairs) as [Hg Hb].
  assert (count isGapExceeded issues = count (exceeds e) pairs) as Hcount.
  { rewrite Hissues, count_app, Hg.
    destruct below;
      [change (count isGapExceeded [belowMinIssue e]) with 0%nat
      | change (count isGapExceeded []) with 0%nat]; lia. }
  split; [exact Hissues |]. split; [exact Hcount |]. split.
  - rewrite Hissues, count_app, Hb. by destruct below.
  - intros Hlen. rewrite Hcount.
    assert (pairs = []) as ->; [| done].
    apply length_zero_iff_nil. unfold pairs. rewrite consecutive_length. lia.
Qed.

Lemma periodic_finalize_reports_witness :
  map Type_ (Issues (fst (Finalize (at_ 1000) periodicS3Fed))) =
    [IssueTypeGapExceeded; IssueTypeBelowMinOccurrences] /\
  count isGapExceeded
    (Issues (fst (Finalize (at_ 1000) (Process periodicS3 (mkLine "HEARTBEAT" 0 1)))))
  = 0%nat.
Proof.
  split.
  - rewrite (proj1 (periodic_finalize_reports periodicS3Fed (at_ 1000))).
    vm_compute. reflexivity.
  - apply (periodic_finalize_reports
             (Process periodicS3 (mkLine "HEARTBEAT" 0 1)) (at_ 1000)).
    vm_compute. lia.
Defined.

End Periodic.

(** ** The sequence engine *)

Section Sequence.

Import SequenceEngine.

Lemma processStart_config (e e1 : t) (l : ParsedLine) :
  processStart e l = Some e1 ->
  name e1 = name e /\ description e1 = description e /\
  timeout e1 = timeout e /\ corrField e1 = corrField e /\
  startPattern e1 = startPattern e /\ endPattern e1 = endPattern e.
Proof.
  unfold processStart. intros H.
  destruct (FindStringSubmatch (startPattern e) (Raw l)) as [ms |];
    [| by inversion H].
  destruct (corrField e <=? len ms - 1); [| by inversion H].
  destruct (index ms (corrField e)); inversion H. done.
Qed.

Lemma processEnd_config (e e2 : t) (l : ParsedLine) :
  processEnd e l = Some e2 ->
  name e2 = name e /\ description e2 = description e /\
  timeout e2 = timeout e /\ corrField e2 = corrField e /\
  startPattern e2 = startPattern e /\ endPattern e2 = endPattern e.
Proof.
  unfold processEnd. intros H.
  destruct (FindStringSubmatch (endPattern e) (Raw l)) as [ms |];
    [| by inversion H].
  destruct (corrField e <=? len ms - 1); [| by inversion H].
  destruct (index ms (corrField e)) as [id |]; [| by inversion H].
  simpl in H. destruct (openSequences e !! id) as [tr |]; [| by inversion H].
  destruct (Sub (Timestamp l) (startTime tr) <=? timeout e); by inversion H.
Qed.

Lemma keyed_Reset (e : t) : keyed (Reset e).
Proof. intros id tr. simpl. by rewrite lookup_empty. Qed.

Lemma keyed_processStart (e e1 : t) (l : ParsedLine) :
  keyed e -> processStart e l = Some e1 -> keyed e1.
Proof.
  unfold processStart. intros Hk H.
  destruct (FindStringSubmatch (startPattern e) (Raw l)) as [ms |];
    [| by inversion H; subst].
  destruct (corrField e <=? len ms - 1); [| by inversion H; subst].
  destruct (index ms (corrField e)) as [id |]; inversion H; subst.
  intros id' tr. simpl. rewrite lookup_insert. case_decide.
  - intros [= <-]. by subst.
  - apply Hk.
Qed.

Lemma keyed_processEnd (e e2 : t) (l : ParsedLine) :
  keyed e -> processEnd e l = Some e2 -> keyed e2.
Proof.
  unfold processEnd. intros Hk H.
  destruct (FindStringSubmatch (endPattern e) (Raw l)) as [ms |];
    [| by inversion H; subst].
  destruct (corrField e <=? len ms - 1); [| by inversion H; subst].
  destruct (index ms (corrField e)) as [id |]; [| by inversion H].
  simpl in H. destruct (openSequences e !! id) as [tr |];
    [| by inversion H; subst].
  destruct (Sub (Timestamp l) (startTime tr) <=? timeout e);
    inversion H; subst; [| done].
  intros id' tr'. simpl. rewrite lookup_delete. case_decide; [done |].
  apply Hk.
Qed.

Lemma keyed_Process (e e2 : t) (l : ParsedLine) :
  keyed e -> Process e l = Some e2 -> keyed e2.
Proof.
  unfold Process. intros Hk H.
  destruct (processStart (with_stats e (processedOne (stats e))) l)
    as [e1 |] eqn:H1; [| done].
  simpl in H. eapply keyed_processEnd; [| exact H].
  exact (keyed_processStart
           (with_stats e (processedOne (stats e))) _ _ Hk H1).
Qed.

(** Every open entry is reported by [Finalize], whatever the order of the
    traversal. *)
Lemma Finalize_reports (ord : MapRange sequenceTracker) (now : Time) (e : t)
    (id : string) (tr : sequenceTracker) :
  openSequences e !! id = Some tr ->
  issueOf e tr ∈ Issues (fst (Finalize ord now e)).
Proof.
  intros Hopen. unfold Finalize. simpl.
  apply list_elem_of_In.
  apply (in_map (fun kv : string * sequenceTracker =>
                   issueOf (with_stats e (endedAt now (stats e))) kv.2)
                _ (id, tr)).
  apply list_elem_of_In.
  rewrite (visit_perm ord). by apply elem_of_map_to_list.
Qed.

(** C4.  Let an end-regex match carry the correlation id [id], and let the
    entry that the end branch of [Process] finds open for [id] be [tr] (the
    entry open before the record, unless the record itself also matched the
    start pattern for [id]).  The entry is deleted exactly when
    [record.ts - tr.start <= timeout]; in particular a record at
    [tr.start + timeout] closes it.  When the elapsed time exceeds the
    timeout the entry stays as it is, and [Finalize] reports it as a
    MissingEnd issue that carries the id, the start time, the source, the
    line number and the configured timeout. *)
Theorem sequence_end_match_closes_within_timeout
    (e e1 : t) (l : ParsedLine) (ms : list string) (id : string)
    (tr : sequenceTracker) :
  keyed e ->
  processStart (with_stats e (processedOne (stats e))) l = Some e1 ->
  FindStringSubmatch (endPattern e) (Raw l) = Some ms ->
  corrField e <= len ms - 1 ->
  index ms (corrField e) = Some id ->
  openSequences e1 !! id = Some tr ->
  let elapsed := Sub (Timestamp l) (startTime tr) in
  exists e2,
    Process e l = Some e2 /\
    (openSequences e2 !! id = None <-> elapsed <= timeout e) /\
    (minDuration <= timeout e <= maxDuration ->
     Timestamp l = startTime tr + timeout e ->
     openSequences e2 !! id = None) /\
    (timeout e < elapsed ->
     openSequences e2 = openSequences e1 /\
     forall ord now,
       {| Type_ := IssueTypeMissingEnd;
          Description :=
            Sprintf "Sequence started but not completed within %s"
              [FDuration (timeout e)];
          Context :=
            {| CorrelationID := id;
               ctxStartTime := startTime tr;
               ctxEndTime := zeroTime;
               ctxSource := trkSource tr;
               ctxLineNum := trkLineNum tr;
               Timeout := timeout e;
               ActualGap := 0; ExpectedGap := 0;
               Occurrences := 0; MinRequired := 0 |} |}
       ∈ Issues (fst (Finalize ord now e2))).
Proof.
  intros Hk H1 Hm Hle Hid Hopen elapsed.
  pose proof (keyed_processStart
                (with_stats e (processedOne (stats e))) _ _ Hk H1) as Hk1.
  destruct (processStart_config _ _ _ H1) as (_ & _ & Ht & Hc & _ & He).
  simpl in Ht, Hc, He.
  unfold Process. rewrite H1. simpl. unfold processEnd.
  rewrite He, Hm, Hc, Ht.
  destruct (Z.leb_spec (corrField e) (len ms - 1)); [| lia].
  rewrite Hid. simpl. rewrite Hopen. fold elapsed.
  destruct (Z.leb_spec elapsed (timeout e)) as [Hin | Hout].
  - eexists. split; [done |]. simpl. rewrite lookup_delete_eq.
    split; [done |]. split; [done | lia].
  - exists e1. split; [done |]. split; [| split].
    + rewrite Hopen. split; [done | lia].
    + intros Hrange Hts. exfalso.
      unfold elapsed, Sub in Hout. rewrite Hts in Hout.
      replace (startTime tr + timeout e - startTime tr) with (timeout e)
        in Hout by lia.
      destruct (Z.ltb_spec (timeout e) minDuration); [lia |].
      destruct (Z.ltb_spec maxDuration (timeout e)); lia.
    + intros _. split; [done |]. intros ord now.
      pose proof (Finalize_reports ord now e1 id tr Hopen) as Hrep.
      unfold issueOf in Hrep. simpl in Hrep.
      rewrite Ht in Hrep. by rewrite (Hk1 id tr Hopen) in Hrep.
Qed.

Lemma sequence_end_match_closes_within_timeout_witness :
  (exists e2, Process seqS1Open (mkLine "END id=abc" 60 2) = Some e2 /\
              openSequences e2 !! "abc" = None) /\
  (exists e2, Process seqS1Open (mkLine "END id=abc" 61 2) = Some e2 /\
              openSequences e2 !! "abc" <> None).
Proof.
  assert (keyed seqS1Open) as Hk.
  { intros id tr. unfold seqS1Open. simpl.
    rewrite lookup_singleton. case_decide; [| done]. intros [= <-]. done. }
  split.
  - destruct (sequence_end_match_closes_within_timeout
                seqS1Open _ (mkLine "END id=abc" 60 2)
                ["END id=abc"; "abc"] "abc"
                {| trkCorrelationID := "abc"; startTime := at_ 0;
                   trkSource := "test.log"; trkLineNum := 1 |}
                Hk eq_refl eq_refl ltac:(vm_compute; discriminate) eq_refl
                eq_refl)
      as (e2 & HP & Hiff & _).
    exists e2. split; [exact HP |]. apply Hiff. vm_compute. discriminate.
  - destruct (sequence_end_match_closes_within_timeout
                seqS1Open _ (mkLine "END id=abc" 61 2)
                ["END id=abc"; "abc"] "abc"
                {| trkCorrelationID := "abc"; startTime := at_ 0;
                   trkSource := "test.log"; trkLineNum := 1 |}
                Hk eq_refl eq_refl ltac:(vm_compute; discriminate) eq_refl
                eq_refl)
      as (e2 & HP & Hiff & _).
    exists e2. split; [exact HP |]. intros Hnone.
    apply Hiff in Hnone. vm_compute in Hnone. by apply Hnone.
Defined.

End Sequence.

(** ** The analyzer *)

Section AnalyzerLoop.

Import Analyzer.

(** With a time range whose end lies before its start every record is
    filtered out. *)
Lemma filteredOut_inverted (tr : TimeRange) (l : ParsedLine) :
  End_ tr < Start tr -> filteredOut (Some tr) l = true.
Proof.
  intros Hinv. unfold filteredOut, Before, After.
  destruct (Z.ltb_spec (Timestamp l) (Start tr)); [done |].
  destruct (Z.ltb_spec (End_ tr) (Timestamp l)); [done | lia].
Qed.

Lemma loop_inverted (ctx : Context_) (tr : TimeRange) (src : LogSource) :
  End_ tr < Start tr ->
  forall k s,
  exists s', endState (loop ctx (Some tr) k src s) = Some s' /\
             lsEngines s' = lsEngines s /\
             lsLinesProcessed s' = lsLinesProcessed s.
Proof.
  intros Hinv. induction src as [| o src IH]; intros k s; cbn [loop].
  - destruct (ctx k); by exists s.
  - destruct (ctx k); [by exists s |].
    destruct o as [l | err]; [| by exists s].
    rewrite (filteredOut_inverted tr l Hinv).
    edestruct IH as (s' & Hs' & He & Hn).
    exists s'. split; [exact Hs' |].
    rewrite He, Hn. by case_decide.
Qed.

Lemma loop_total (tr : option TimeRange) (src : LogSource) :
  neverFails src ->
  forall k s,
  loop neverCancelled tr k src s = Panicked \/
  exists s', loop neverCancelled tr k src s = AtEOF s'.
Proof.
  induction 1 as [| o src Ho _ IH]; intros k s; cbn [loop].
  - right. by exists s.
  - destruct o as [l | err]; [| done].
    destruct (filteredOut tr l); [apply IH |].
    destruct (processAll _ l); [apply IH | by left].
Qed.

(** A loop that reaches the end of the source did not see the context
    cancelled: it ran as if the context could not be. *)
Lemma loop_AtEOF_ctx (ctx : Context_) (tr : option TimeRange)
    (src : LogSource) :
  forall k s s',
  loop ctx tr k src s = AtEOF s' ->
  loop neverCancelled tr k src s = AtEOF s'.
Proof.
  induction src as [| o src IH]; intros k s s'; cbn [loop].
  - by destruct (ctx k).
  - destruct (ctx k); [done |].
    destruct o as [l | err]; [| done].
    destruct (filteredOut tr l); [apply IH |].
    destruct (processAll _ l); [apply IH | done].
Qed.

(** What [Finalize] reports for engines that were reset and offered no
    record. *)
Lemma finalizeAll_idle (ord : MapRange sequenceTracker) (clock : Clock)
    (es : list RuleEngine) :
  forall first,
  Forall2 (fun e rr => Issues rr = issuesOfIdle e) es
          (fst (finalizeAll ord clock first (map RuleEngine.Reset es))).
Proof.
  induction es as [| e es IH]; intros first; cbn [map finalizeAll].
  - constructor.
  - specialize (IH (S first)).
    destruct (finalizeAll ord clock (S first) (map RuleEngine.Reset es))
      as [rs es'].
    destruct (RuleEngine.Finalize ord (clock first) (RuleEngine.Reset e))
      as [r e'] eqn:Hfin.
    cbn [fst] in *. constructor; [| exact IH].
    destruct e as [q | p | c]; cbn in Hfin.
    + inversion Hfin; subst; clear Hfin. cbn [Issues issuesOfIdle].
      assert (visit ord (map_to_list (∅ : gmap string sequenceTracker)) = [])
        as Hnil.
      { apply Permutation_nil_r. rewrite visit_perm.
        by rewrite map_to_list_empty. }
      by rewrite Hnil.
    + inversion Hfin; subst; clear Hfin. cbn [Issues issuesOfIdle].
      unfold len. cbn [length Z.of_nat].
      change (Z.of_nat 0) with 0.
      by destruct (0 <? PeriodicEngine.minOccurrences p).
    + inversion Hfin; subst; clear Hfin. done.
Qed.

(** *** Engines keep their rule: only the state changes *)

Lemma Reset_Reset (e : RuleEngine) :
  RuleEngine.Reset (RuleEngine.Reset e) = RuleEngine.Reset e.
Proof. by destruct e. Qed.

Lemma Reset_Process (e e' : RuleEngine) (l : ParsedLine) :
  RuleEngine.Process e l = Some e' ->
  RuleEngine.Reset e' = RuleEngine.Reset e.
Proof.
  destruct e as [q | p | c]; cbn [RuleEngine.Process].
  - destruct (SequenceEngine.Process q l) as [q' |] eqn:HP; [| done].
    intros [= <-]. unfold SequenceEngine.Process in HP.
    destruct (SequenceEngine.processStart _ l) as [q1 |] eqn:H1; [| done].
    cbn in HP.
    destruct (processStart_config _ _ _ H1) as (? & ? & ? & ? & ? & ?).
    destruct (processEnd_config _ _ _ HP) as (? & ? & ? & ? & ? & ?).
    cbn in *. unfold SequenceEngine.Reset, SequenceEngine.with_stats,
      SequenceEngine.with_open. cbn. congruence.
  - intros [= <-]. cbn. unfold PeriodicEngine.Process.
    by destruct (MatchString _ _).
  - intros [= <-]. cbn.
    unfold ConditionalEngine.Process, ConditionalEngine.processExpected,
      ConditionalEngine.processTrigger. cbn.
    destruct (FindStringSubmatch (ConditionalEngine.triggerPattern c) (Raw l));
      cbn;
      by destruct (FindStringSubmatch (ConditionalEngine.expectedPattern c)
                     (Raw l)).
Qed.

Lemma Reset_Finalize (ord : MapRange sequenceTracker) (now : Time)
    (e : RuleEngine) :
  RuleEngine.Reset (snd (RuleEngine.Finalize ord now e)) = RuleEngine.Reset e.
Proof. by destruct e. Qed.

Lemma Reset_processAll (es es' : list RuleEngine) (l : ParsedLine) :
  processAll es l = Some es' ->
  map RuleEngine.Reset es' = map RuleEngine.Reset es.
Proof.
  revert es'. induction es as [| e es IH]; intros es'; cbn [processAll].
  - by intros [= <-].
  - destruct (RuleEngine.Process e l) as [e1 |] eqn:He; [| done]. cbn.
    destruct (processAll es l) as [es1 |]; [| done]. cbn.
    intros [= <-]. cbn. f_equal; [by eapply Reset_Process | by apply IH].
Qed.

Lemma Reset_loop (ctx : Context_) (tr : option TimeRange) (src : LogSource) :
  forall k s s',
  endState (loop ctx tr k src s) = Some s' ->
  map RuleEngine.Reset (lsEngines s') = map RuleEngine.Reset (lsEngines s).
Proof.
  induction src as [| o src IH]; intros k s s'; cbn [loop].
  - destruct (ctx k); by intros [= <-].
  - destruct (ctx k); [by intros [= <-] |].
    destruct o as [l | err]; [| by intros [= <-]].
    destruct (filteredOut tr l).
    + intros H. apply IH in H. rewrite H. by case_decide.
    + destruct (processAll _ l) as [es |] eqn:HP; [| done].
      intros H. apply IH in H. rewrite H. cbn [lsEngines].
      apply Reset_processAll in HP. rewrite HP. by case_decide.
Qed.

Lemma Reset_finalizeAll (ord : MapRange sequenceTracker) (clock : Clock)
    (es : list RuleEngine) :
  forall first,
  map RuleEngine.Reset (snd (finalizeAll ord clock first es)) =
  map RuleEngine.Reset es.
Proof.
  induction es as [| e es IH]; intros first; cbn [finalizeAll]; [done |].
  specialize (IH (S first)).
  pose proof (Reset_Finalize ord (clock first) e) as He.
  destruct (RuleEngine.Finalize ord (clock first) e) as [r e'].
  destruct (finalizeAll ord clock (S first) es) as [rs es'].
  cbn in *. by rewrite He, IH.
Qed.

(** Two calls of [Finalize] on one engine agree up to the clock and, for a
    sequence rule, the order of the issues. *)
Lemma Finalize_sameFindings (ord1 ord2 : MapRange sequenceTracker)
    (now1 now2 : Time) (e : RuleEngine) :
  sameFindings (fst (RuleEngine.Finalize ord1 now1 e))
               (fst (RuleEngine.Finalize ord2 now2 e)).
Proof.
  destruct e as [q | p | c]; cbn [RuleEngine.Finalize].
  - unfold sameFindings. cbn. repeat (split; [done |]).
    apply Permutation_map. by rewrite !visit_perm.
  - pose proof (Periodic_Finalize_issues p now1) as H1.
    pose proof (Periodic_Finalize_issues p now2) as H2.
    destruct (PeriodicEngine.Finalize now1 p) as [r1 e1] eqn:E1.
    destruct (PeriodicEngine.Finalize now2 p) as [r2 e2] eqn:E2.
    unfold PeriodicEngine.Finalize in E1, E2.
    injection E1 as <- <-. injection E2 as <- <-.
    unfold sameFindings. cbn [fst RuleName RuleType_ RuleDescription Stats].
    cbn [fst] in H1, H2. rewrite H1, H2. by cbn.
  - unfold sameFindings. by cbn.
Qed.

Lemma finalizeAll_sameFindings (ord1 ord2 : MapRange sequenceTracker)
    (clock1 clock2 : Clock) (es : list RuleEngine) :
  forall first1 first2,
  Forall2 sameFindings (fst (finalizeAll ord1 clock1 first1 es))
                       (fst (finalizeAll ord2 clock2 first2 es)).
Proof.
  induction es as [| e es IH]; intros first1 first2; cbn [finalizeAll].
  - constructor.
  - specialize (IH (S first1) (S first2)).
    pose proof (Finalize_sameFindings ord1 ord2 (clock1 first1)
                  (clock2 first2) e) as He.
    destruct (RuleEngine.Finalize ord1 (clock1 first1) e) as [r1 e1].
    destruct (RuleEngine.Finalize ord2 (clock2 first2) e) as [r2 e2].
    destruct (finalizeAll ord1 clock1 (S first1) es) as [rs1 es1].
    destruct (finalizeAll ord2 clock2 (S first2) es) as [rs2 es2].
    by constructor.
Qed.

(** With one order of traversal the issues are the same lists. *)
Lemma finalizeAll_sameIssues (ord1 ord2 : MapRange sequenceTracker)
    (clock1 clock2 : Clock) (es : list RuleEngine) :
  (forall l, visit ord1 l = visit ord2 l) ->
  forall first1 first2,
  map Issues (fst (finalizeAll ord1 clock1 first1 es)) =
  map Issues (fst (finalizeAll ord2 clock2 first2 es)).
Proof.
  intros Hord.
  induction es as [| e es IH]; intros first1 first2; cbn [finalizeAll];
    [done |].
  specialize (IH (S first1) (S first2)).
  assert (Issues (fst (RuleEngine.Finalize ord1 (clock1 first1) e)) =
          Issues (fst (RuleEngine.Finalize ord2 (clock2 first2) e))) as He.
  { destruct e as [q | p | c]; cbn [RuleEngine.Finalize].
    - cbn. by rewrite Hord.
    - pose proof (Periodic_Finalize_issues p (clock1 first1)) as H1.
      pose proof (Periodic_Finalize_issues p (clock2 first2)) as H2.
      destruct (PeriodicEngine.Finalize (clock1 first1) p) as [r1 e1].
      destruct (PeriodicEngine.Finalize (clock2 first2) p) as [r2 e2].
      cbn [fst] in *. by rewrite H1, H2.
    - by cbn. }
  destruct (RuleEngine.Finalize ord1 (clock1 first1) e) as [r1 e1].
  destruct (RuleEngine.Finalize ord2 (clock2 first2) e) as [r2 e2].
  destruct (finalizeAll ord1 clock1 (S first1) es) as [rs1 es1].
  destruct (finalizeAll ord2 clock2 (S first2) es) as [rs2 es2].
  cbn in *. by rewrite He, IH.
Qed.

End AnalyzerLoop.

Section AnalyzerClaims.

Import Analyzer.

(** C8, as the code has it.  With a time range whose start lies after its
    end, an analysis that returns a result reports zero lines processed, and
    the result of each rule holds no issue, except that a periodic rule with
    a minimum-occurrence count greater than zero reports its one
    BelowMinOccurrences issue (zero occurrences).  The analysis does return
    a result when the source never fails and the context is never
    cancelled. *)
Theorem analyze_inverted_time_range
    (ord : MapRange sequenceTracker) (clock : Clock) (ctx : Context_)
    (a : Analyzer) (src : LogSource) (tr : TimeRange) :
  timeRange a = Some tr ->
  End_ tr < Start tr ->
  (forall r,
     fst (Analyze ord clock ctx a src) = Analyzed r ->
     mdLinesProcessed (Metadata r) = 0 /\
     Forall2 (fun e rr => Issues rr = issuesOfIdle e) (engines a) (Results r))
  /\
  (neverFails src ->
   exists r, fst (Analyze ord clock neverCancelled a src) = Analyzed r).
Proof.
  intros Htr Hinv.
  assert (forall ctx' r,
            fst (Analyze ord clock ctx' a src) = Analyzed r ->
            mdLinesProcessed (Metadata r) = 0 /\
            Forall2 (fun e rr => Issues rr = issuesOfIdle e)
                    (engines a) (Results r)) as Hres.
  { intros ctx' r. unfold Analyze. rewrite Htr.
    destruct (loop_inverted ctx' tr src Hinv 0
                {| lsEngines := map RuleEngine.Reset (engines a);
                   lsSourcesMap := ∅; lsSources := [];
                   lsLinesProcessed := 0 |})
      as (s' & Hend & Hengines & Hlines).
    cbn [lsEngines lsLinesProcessed] in Hengines, Hlines.
    destruct (loop ctx' (Some tr) 0 src _) as [s | s | err s |];
      cbn [endState] in Hend; try done.
    injection Hend as ->.
    pose proof (finalizeAll_idle ord clock (engines a) 1) as Hidle.
    rewrite Hengines.
    destruct (finalizeAll ord clock 1 (map RuleEngine.Reset (engines a)))
      as [rs es'].
    cbn [fst]. intros [= <-]. cbn [Metadata mdLinesProcessed Results].
    split; [exact Hlines | exact Hidle]. }
  split; [apply Hres |].
  intros Hsrc. unfold Analyze. rewrite Htr.
  destruct (loop_total (Some tr) src Hsrc 0
              {| lsEngines := map RuleEngine.Reset (engines a);
                 lsSourcesMap := ∅; lsSources := [];
                 lsLinesProcessed := 0 |}) as [Hpanic | [s' Heof]].
  - destruct (loop_inverted neverCancelled tr src Hinv 0
                {| lsEngines := map RuleEngine.Reset (engines a);
                   lsSourcesMap := ∅; lsSources := [];
                   lsLinesProcessed := 0 |}) as (s' & Hend & _).
    rewrite Hpanic in Hend. done.
  - rewrite Heof.
    destruct (finalizeAll ord clock 1 (lsEngines s')) as [rs es'].
    by eexists.
Qed.

Lemma analyze_inverted_time_range_witness :
  exists r,
    fst (Analyze inOrder frozenClock neverCancelled invertedRange heartbeats)
    = Analyzed r /\
    mdLinesProcessed (Metadata r) = 0.
Proof.
  destruct (analyze_inverted_time_range
              inOrder frozenClock neverCancelled invertedRange heartbeats
              {| Start := at_ 10; End_ := at_ 0 |} eq_refl eq_refl)
    as [Hres Hex].
  destruct Hex as [r Hr].
  - repeat constructor.
  - exists r. split; [exact Hr |]. by apply Hres.
Defined.

(** C8, as stated, fails: with the time range inverted the periodic rule of
    S3 (minimum 10 occurrences) still reports an issue. *)
Lemma analyze_inverted_time_range_counterexample :
  exists r rr,
    fst (Analyze inOrder frozenClock neverCancelled invertedRange heartbeats)
    = Analyzed r /\
    timeRange invertedRange = Some {| Start := at_ 10; End_ := at_ 0 |} /\
    at_ 0 < at_ 10 /\
    rr ∈ Results r /\
    map Type_ (Issues rr) = [IssueTypeBelowMinOccurrences].
Proof.
  eexists. eexists. split; [vm_compute; reflexivity |].
  split; [reflexivity |]. split; [reflexivity |].
  split; [apply list_elem_of_here | reflexivity].
Qed.

(** C9, as the code has it.  Two calls of [Analyze] on the same analyzer
    and the same record stream that both return a result agree, rule by
    rule, on the name, type and description, on the counters and on the
    issues with their payloads; the issues of a periodic or a conditional
    rule come in the same order, those of a sequence rule are the same up
    to their order, which follows the traversal of the map of open
    sequences.  When both calls traverse that map in the same order, the
    issue lists of every rule are identical.  The sources seen, the lines
    processed and the time range of the metadata agree as well. *)
Theorem analyze_twice_same_findings
    (ord1 ord2 : MapRange sequenceTracker) (clock1 clock2 : Clock)
    (ctx1 ctx2 : Context_) (a : Analyzer) (src : LogSource)
    (r1 r2 : AnalysisResult) :
  fst (Analyze ord1 clock1 ctx1 a src) = Analyzed r1 ->
  fst (Analyze ord2 clock2 ctx2 (snd (Analyze ord1 clock1 ctx1 a src)) src)
  = Analyzed r2 ->
  Forall2 sameFindings (Results r1) (Results r2) /\
  ((forall l, visit ord1 l = visit ord2 l) ->
   map Issues (Results r1) = map Issues (Results r2)) /\
  mdSources (Metadata r1) = mdSources (Metadata r2) /\
  mdLinesProcessed (Metadata r1) = mdLinesProcessed (Metadata r2) /\
  mdTimeRange (Metadata r1) = mdTimeRange (Metadata r2).
Proof.
  unfold Analyze at 1 3.
  set (s0 := {| lsEngines := map RuleEngine.Reset (engines a);
                lsSourcesMap := ∅; lsSources := [];
                lsLinesProcessed := 0 |}).
  destruct (loop ctx1 (timeRange a) 0 src s0) as [s1 | s1 | err s1 |] eqn:L1;
    cbn [fst]; try done.
  pose proof (Reset_loop ctx1 (timeRange a) src 0 s0 s1) as Hreset.
  rewrite L1 in Hreset. specialize (Hreset eq_refl). cbn [lsEngines s0] in Hreset.
  pose proof (Reset_finalizeAll ord1 clock1 (lsEngines s1) 1) as Hfin.
  destruct (finalizeAll ord1 clock1 1 (lsEngines s1)) as [rs1 es1] eqn:F1.
  cbn [snd] in Hfin.
  intros [= <-]. unfold Analyze. cbn [snd engines timeRange].
  assert (map RuleEngine.Reset es1 = map RuleEngine.Reset (engines a)) as Hsame.
  { rewrite Hfin, Hreset. rewrite map_map.
    apply map_ext. intros e. apply Reset_Reset. }
  rewrite Hsame. fold s0.
  destruct (loop ctx2 (timeRange a) 0 src s0) as [s2 | s2 | err s2 |] eqn:L2;
    try done.
  apply loop_AtEOF_ctx in L1, L2. rewrite L1 in L2. injection L2 as <-.
  destruct (finalizeAll ord2 clock2 1 (lsEngines s1)) as [rs2 es2] eqn:F2.
  cbn [fst]. intros [= <-]. cbn [Results Metadata mdSources mdLinesProcessed
                                   mdTimeRange].
  pose proof (finalizeAll_sameFindings ord1 ord2 clock1 clock2
                (lsEngines s1) 1 1) as HF.
  rewrite F1, F2 in HF. cbn [fst] in HF.
  split; [exact HF |]. split; [| done].
  intros Hord.
  pose proof (finalizeAll_sameIssues ord1 ord2 clock1 clock2
                (lsEngines s1) Hord 1 1) as HI.
  by rewrite F1, F2 in HI.
Qed.

Lemma analyze_twice_same_findings_witness :
  exists r1 r2,
    fst (Analyze inOrder frozenClock neverCancelled twoSequences twoStarts)
    = Analyzed r1 /\
    fst (Analyze reversed frozenClock neverCancelled
           (snd (Analyze inOrder frozenClock neverCancelled twoSequences
                   twoStarts)) twoStarts)
    = Analyzed r2 /\
    Forall2 sameFindings (Results r1) (Results r2).
Proof.
  eexists. eexists.
  split; [vm_compute; reflexivity |]. split; [vm_compute; reflexivity |].
  eapply (analyze_twice_same_findings
            inOrder reversed frozenClock frozenClock
            neverCancelled neverCancelled twoSequences twoStarts);
    vm_compute; reflexivity.
Defined.

(** C9, as stated, fails: the second call on the same analyzer and stream
    may visit the open sequences in another order and report the issues of
    the sequence rule in another order. *)
Lemma analyze_twice_counterexample :
  exists r1 r2,
    fst (Analyze inOrder frozenClock neverCancelled twoSequences twoStarts)
    = Analyzed r1 /\
    fst (Analyze reversed frozenClock neverCancelled
           (snd (Analyze inOrder frozenClock neverCancelled twoSequences
                   twoStarts)) twoStarts)
    = Analyzed r2 /\
    map (fun rr => map (fun i => CorrelationID (Context i)) (Issues rr))
        (Results r1) = [["a"; "b"]] /\
    map (fun rr => map (fun i => CorrelationID (Context i)) (Issues rr))
        (Results r2) = [["b"; "a"]] /\
    map Issues (Results r1) <> map Issues (Results r2).
Proof.
  eexists. eexists.
  split; [vm_compute; reflexivity |]. split; [vm_compute; reflexivity |].
  split; [vm_compute; reflexivity |]. split; [vm_compute; reflexivity |].
  vm_compute. discriminate.
Qed.

End AnalyzerClaims.

(** ** Unix timestamps *)

Section UnixSeconds.

Lemma digitOf_range (c : ascii) (d : Z) : digitOf c = Some d -> 0 <= d <= 9.
Proof.
  unfold digitOf.
  destruct (Z.leb_spec 48 (Z.of_N (N_of_ascii c)));
    destruct (Z.leb_spec (Z.of_N (N_of_ascii c)) 57); simpl;
    intros [= <-]; lia.
Qed.

Lemma digitsValue_ge (s : string) :
  forall acc v, 0 <= acc -> digitsValue s acc = Some v -> acc <= v.
Proof.
  induction s as [| c r IH]; intros acc v Hacc; simpl.
  - intros [= <-]. lia.
  - destruct (digitOf c) as [d |] eqn:Hd; [| done].
    apply digitOf_range in Hd. intros H. apply IH in H; lia.
Qed.

(** The loop of [ParseUint] computes the value of the digits, and fails
    exactly when a byte is not a digit or the value leaves [uint64]. *)
Lemma ParseUint_loop_spec (s : string) :
  forall n, 0 <= n <= maxUint64 ->
  match ParseUint_loop s n with
  | inl v => digitsValue s n = Some v /\ v <= maxUint64
  | inr _ => forall v, digitsValue s n = Some v -> maxUint64 < v
  end.
Proof.
  induction s as [| c r IH]; intros n Hn; simpl.
  - split; [done | lia].
  - destruct (digitOf c) as [d |] eqn:Hd; [| done].
    pose proof (digitOf_range c d Hd) as Hrange.
    destruct (Z.leb_spec (maxUint64 / 10 + 1) n) as [Hbig | Hsmall].
    + intros v Hv. apply digitsValue_ge in Hv; [| lia].
      unfold maxUint64 in *.
      change ((2 ^ 64 - 1) / 10 + 1) with 1844674407370955162 in Hbig. lia.
    + destruct (Z.ltb_spec maxUint64 (n * 10 + d)) as [Hover | Hfits].
      * intros v Hv. apply digitsValue_ge in Hv; lia.
      * apply IH. lia.
Qed.

Lemma ParseUint_spec (s : string) :
  s <> EmptyString ->
  match ParseUint s with
  | inl v => digitsValue s 0 = Some v /\ 0 <= v <= maxUint64
  | inr _ => forall v, digitsValue s 0 = Some v -> maxUint64 < v
  end.
Proof.
  intros Hs. unfold ParseUint. destruct s as [| c r]; [done |].
  pose proof (ParseUint_loop_spec (String c r) 0) as H.
  destruct (ParseUint_loop (String c r) 0) as [v | err].
  - destruct H as [Hv Hle]; [unfold maxUint64; lia |].
    split; [done |]. apply digitsValue_ge in Hv; lia.
  - apply H. unfold maxUint64. lia.
Qed.

(** The part of [ParseInt] after the sign has been read. *)
Lemma ParseInt_body (neg : bool) (s1 : string) (v : Z) :
  s1 <> EmptyString ->
  match ParseUint s1 with
  | inr e => inr e
  | inl un =>
      if negb neg && (2 ^ 63 <=? un) then inr ErrRange
      else if neg && (2 ^ 63 <? un) then inr ErrRange
      else inl (if neg then - un else un)
  end = inl v <->
  (exists u, digitsValue s1 0 = Some u /\ v = if neg then - u else u) /\
  - 2 ^ 63 <= v <= 2 ^ 63 - 1.
Proof.
  intros Hs. pose proof (ParseUint_spec s1 Hs) as H.
  destruct (ParseUint s1) as [un | err].
  - destruct H as [Hun Hrange].
    destruct neg; cbn [negb andb].
    + destruct (Z.ltb_spec (2 ^ 63) un); split.
      * done.
      * intros [(u & Hu & ->) ?]. rewrite Hun in Hu. injection Hu as <-. lia.
      * intros [= <-]. split; [by exists un | lia].
      * intros [(u & Hu & ->) ?]. rewrite Hun in Hu. by injection Hu as <-.
    + destruct (Z.leb_spec (2 ^ 63) un); split.
      * done.
      * intros [(u & Hu & ->) ?]. rewrite Hun in Hu. injection Hu as <-. lia.
      * intros [= <-]. split; [by exists un | lia].
      * intros [(u & Hu & ->) ?]. rewrite Hun in Hu. by injection Hu as <-.
  - split; [done |]. intros [(u & Hu & ->) Hr].
    pose proof (H u Hu) as Hbig. unfold maxUint64 in Hbig.
    destruct neg; [| lia].
    pose proof (digitsValue_ge s1 0 u ltac:(lia) Hu). lia.
Qed.

(** [ParseInt] returns the value of a signed decimal integer that fits
    [int64], and nothing else. *)
Lemma ParseInt_spec (s : string) (v : Z) :
  ParseInt s = inl v <->
  signedDecimal s = Some v /\ minInt64 <= v <= maxInt64.
Proof.
  unfold ParseInt, signedDecimal, minInt64, maxInt64.
  destruct s as [| c r]; [by split; [| intros [? _]] |]. cbv zeta.
  destruct (Ascii.eqb_spec c "-") as [-> | Hminus].
  - change (Ascii.eqb "-" "+") with false. cbn [orb].
    destruct r as [| c' r']; [by split; [| intros [? _]] |].
    rewrite (ParseInt_body true (String c' r') v) by done.
    destruct (digitsValue (String c' r') 0) as [u |]; cbn [fmap option_fmap option_map].
    + split.
      * intros [(u' & [= <-] & ->) ?]. done.
      * intros [[= <-] ?]. split; [by exists u | done].
    + split; [by intros [(u' & ? & _) _] | by intros [? _]].
  - destruct (Ascii.eqb_spec c "+") as [-> | Hplus]; cbn [orb].
    + destruct r as [| c' r']; [by split; [| intros [? _]] |].
      rewrite (ParseInt_body false (String c' r') v) by done.
      split.
      * intros [(u' & Hu & ->) ?]. done.
      * intros [Hv ?]. split; [by exists v | done].
    + rewrite (ParseInt_body false (String c r) v) by done.
      split.
      * intros [(u' & Hu & ->) ?]. done.
      * intros [Hv ?]. split; [by exists v | done].
Qed.

Context `{lib : GoLibrary}.

(** The detector reads a Unix-seconds timestamp exactly as the
    specification says: the string has to be a signed decimal integer in
    [0, 4102444800]. *)
Lemma Detector_parseTimestamp_unix_seconds (tsStr : string) (t : Time) :
  Detector.parseTimestamp tsStr "UNIX_SECONDS" = Some t <->
  exists v, signedDecimal tsStr = Some v /\ 0 <= v <= 4102444800 /\
            t = time_Unix v.
Proof.
  unfold Detector.parseTimestamp. cbn [String.eqb Ascii.eqb Bool.eqb andb].
  change (String.eqb "UNIX_SECONDS" "UNIX_SECONDS") with true. cbv iota.
  destruct (ParseInt tsStr) as [secs | err] eqn:HP.
  - apply ParseInt_spec in HP as [Hdec Hrange].
    destruct (Z.ltb_spec secs 0); cbn [orb].
    + split; [done |]. intros (v & Hv & Hr & _). rewrite Hdec in Hv.
      injection Hv as <-. lia.
    + destruct (Z.ltb_spec 4102444800 secs); split.
      * done.
      * intros (v & Hv & Hr & _). rewrite Hdec in Hv. injection Hv as <-. lia.
      * intros [= <-]. exists secs. split; [done |]. split; [lia | done].
      * intros (v & Hv & Hr & ->). rewrite Hdec in Hv. by injection Hv as <-.
  - split; [done |]. intros (v & Hv & Hr & _).
    assert (ParseInt tsStr = inl v) as HP'.
    { apply ParseInt_spec. split; [done |].
      unfold minInt64, maxInt64. lia. }
    congruence.
Qed.

Lemma Detector_parseTimestamp_unix_boundary :
  Detector.parseTimestamp "4102444800" "UNIX_SECONDS"
  = Some (time_Unix 4102444800) /\
  Detector.parseTimestamp "4102444801" "UNIX_SECONDS" = None.
Proof. split; reflexivity. Qed.

(** C7 at the extractor of the analysis pipeline: [Extract] hands the
    layout [UNIX_SECONDS] to [time.Parse], which takes it for plain text, so
    no decimal integer is ever accepted. *)
Theorem Extract_unix_seconds_rejects_integers
    (e : TimestampExtractor) (l whole tsStr : string) (rest : list string)
    (v : Z) :
  layout e = "UNIX_SECONDS"%string ->
  FindStringSubmatch (pattern e) l = Some (whole :: tsStr :: rest) ->
  signedDecimal tsStr = Some v ->
  TimestampExtractor.Extract e l = None.
Proof.
  intros Hlayout Hmatch Hdec.
  unfold TimestampExtractor.Extract. rewrite Hmatch, Hlayout.
  unfold time_Parse.
  change (literalLayout "UNIX_SECONDS") with true. cbv iota.
  destruct (String.eqb_spec tsStr "UNIX_SECONDS") as [-> |]; [| done].
  vm_compute in Hdec. done.
Qed.

End UnixSeconds.

Lemma Extract_unix_seconds_rejects_integers_witness :
  TimestampExtractor.Extract (H := exampleLibrary) unixExtractor
    "1705315800 Application started"
  = None /\
  Detector.parseTimestamp (H := exampleLibrary) "1705315800" "UNIX_SECONDS"
  = Some (time_Unix 1705315800).
Proof.
  split.
  - exact (Extract_unix_seconds_rejects_integers (lib := exampleLibrary)
             unixExtractor "1705315800 Application started"
             "1705315800 " "1705315800" [] 1705315800
             eq_refl eq_refl eq_refl).
  - reflexivity.
Defined.

(** ** The detector *)

Section DetectorFacts.

Context `{lib : GoLibrary}.

(** The confidence of a match is its count over the number of lines handed
    to [DetectFromLines], blank and comment lines included. *)
Lemma DetectFromLines_confidence (ord : MapRange formatStats)
    (srt : SliceSort FormatMatch) (d : Detector) (lines : list string)
    (m : FormatMatch) :
  m ∈ Matches (Detector.DetectFromLines ord srt d lines) ->
  Confidence m = (Qc_of_Z (MatchCount m) / Qc_of_Z (len lines))%Qc.
Proof.
  unfold Detector.DetectFromLines.
  destruct lines as [| l0 ls]; cbn [Matches]; [by intros ?%elem_of_nil |].
  rewrite sortSlice_perm. intros Hin.
  apply list_elem_of_In, in_map_iff in Hin as ([k s] & <- & _). done.
Qed.

(** [sampleFile] keeps no blank and no comment line. *)
Lemma sampleLoop_no_skipped (d : Detector) (file : list string) :
  forall lines,
  Forall (fun l => Detector.skipped (TrimSpace l) = false) lines ->
  Forall (fun l => Detector.skipped (TrimSpace l) = false)
         (Detector.sampleLoop d file lines).
Proof.
  induction file as [| l file IH]; intros lines Hlines;
    cbn [Detector.sampleLoop]; [done |].
  destruct (len lines <? sampleSize d); [| done].
  destruct (negb (String.eqb (TrimSpace l) "")
            && negb (HasPrefix (TrimSpace l) "#")) eqn:Hkeep.
  - apply IH. apply Forall_app. split; [done |]. constructor; [| done].
    unfold Detector.skipped.
    destruct (String.eqb (TrimSpace l) ""); [done |].
    by destruct (HasPrefix (TrimSpace l) "#").
  - by apply IH.
Qed.

Lemma sampleFile_no_skipped (d : Detector) (file : list string) :
  Forall (fun l => Detector.skipped (TrimSpace l) = false)
         (Detector.sampleFile d file).
Proof. by apply sampleLoop_no_skipped. Qed.

(** C6 at the sample of the repository's own test for comment lines: one
    comment and one line with a Unix timestamp.  The format matches the one
    line that is neither blank nor a comment, and the confidence is 1/2,
    not 1: the comment line counts in the denominator. *)
Theorem DetectFromLines_counts_comment_lines
    (ord : MapRange formatStats) (srt : SliceSort FormatMatch) :
  TrimSpace "# This is a comment" = "# This is a comment"%string ->
  TrimSpace "1705315800 Application started"
  = "1705315800 Application started"%string ->
  exists m,
    Matches (Detector.DetectFromLines ord srt unixDetector commentedSample)
    = [m] /\
    MatchCount m = 1 /\
    Confidence m = (Qc_of_Z 1 / Qc_of_Z 2)%Qc /\
    Confidence m <> 1%Qc.
Proof.
  intros H1 H2.
  unfold Detector.DetectFromLines, commentedSample. cbn [Matches].
  assert (Detector.collect unixDetector
            ["# This is a comment"; "1705315800 Application started"]%string
          = {[ "Unix timestamp (seconds)"%string :=
                 {| fsFormat := unixSecondsFormat; matchCount := 1;
                    sampleLine := "1705315800 Application started";
                    parsedTime := time_Unix 1705315800 |} ]}) as ->.
  { unfold Detector.collect. cbn [foldl]. unfold Detector.tryLine at 2.
    rewrite H1. cbn [Detector.skipped]. 
    change (Detector.skipped "# This is a comment") with true. cbv iota.
    unfold Detector.tryLine. rewrite H2.
    change (Detector.skipped "1705315800 Application started") with false.
    cbv iota. vm_compute. reflexivity. }
  rewrite map_to_list_singleton.
  pose proof (visit_perm ord
                [("Unix timestamp (seconds)"%string,
                  {| fsFormat := unixSecondsFormat; matchCount := 1;
                     sampleLine := "1705315800 Application started";
                     parsedTime := time_Unix 1705315800 |})]) as Hv.
  apply Permutation_singleton_r in Hv. rewrite Hv. cbn [map snd].
  eexists. split.
  - apply Permutation_singleton_r. apply sortSlice_perm.
  - split; [reflexivity |]. split; [reflexivity |].
    intros Heq. apply (f_equal this) in Heq. vm_compute in Heq. discriminate.
Qed.

End DetectorFacts.

Lemma DetectFromLines_counts_comment_lines_witness :
  exists m,
    Matches (Detector.DetectFromLines (H := exampleLibrary) inOrder stableSort
               unixDetector commentedSample) = [m] /\
    Confidence m = (Qc_of_Z 1 / Qc_of_Z 2)%Qc.
Proof.
  destruct (DetectFromLines_counts_comment_lines (lib := exampleLibrary)
              inOrder stableSort eq_refl eq_refl) as (m & Hm & _ & Hc & _).
  exists m. split; [exact Hm | exact Hc].
Defined.

(** ** container/heap on [lineHeap] *)

Section HeapFacts.

Import lineHeap.

Lemma Swap_length (h : lineHeap) (i j : nat) :
  length (Swap h i j) = length h.
Proof.
  unfold Swap, lineHeap in *. destruct (h !! i), (h !! j); try done.
  by rewrite !length_insert.
Qed.

(** After [Swap h i j] the two cells hold each other's element. *)
Lemma Swap_lookup (h : lineHeap) (i j k : nat) :
  (i < length h)%nat -> (j < length h)%nat ->
  Swap h i j !! k =
  if decide (k = j) then h !! i
  else if decide (k = i) then h !! j else h !! k.
Proof.
  unfold lineHeap in *.
  intros Hi Hj. unfold Swap, lineHeap in *.
  destruct (lookup_lt_is_Some_2 h i Hi) as [a Ha].
  destruct (lookup_lt_is_Some_2 h j Hj) as [b Hb].
  rewrite Ha, Hb. cbv iota beta.
  destruct (decide (k = j)) as [-> | Hkj].
  - rewrite list_lookup_insert_eq; [done |]. by rewrite length_insert.
  - rewrite list_lookup_insert_ne by done.
    destruct (decide (k = i)) as [-> | Hki].
    + by rewrite list_lookup_insert_eq.
    + by rewrite list_lookup_insert_ne.
Qed.

Lemma Swap_out_of_range (h : lineHeap) (i j : nat) :
  (length h <= i)%nat \/ (length h <= j)%nat -> Swap h i j = h.
Proof.
  unfold lineHeap in *.
  intros [H | H]; unfold Swap, lineHeap.
  - by rewrite (lookup_ge_None_2 h i H).
  - rewrite (lookup_ge_None_2 h j H). by destruct (h !! i).
Qed.

(** [Swap] keeps the elements. *)
Lemma Swap_elem_of (h : lineHeap) (i j : nat) (x : heapItem) :
  x ∈ Swap h i j <-> x ∈ h.
Proof.
  unfold lineHeap in *.
  destruct (Nat.lt_ge_cases i (length h)) as [Hi | Hi];
    [| by rewrite Swap_out_of_range by auto].
  destruct (Nat.lt_ge_cases j (length h)) as [Hj | Hj];
    [| by rewrite Swap_out_of_range by auto].
  rewrite !list_elem_of_lookup. split; intros [k Hk].
  - rewrite Swap_lookup in Hk by done.
    repeat case_decide; eauto.
  - destruct (decide (k = i)) as [-> | Hki].
    + exists j. rewrite Swap_lookup by done. by rewrite decide_True.
    + destruct (decide (k = j)) as [-> | Hkj].
      * exists i. rewrite Swap_lookup by done.
        destruct (decide (i = j)) as [-> | ?]; [done |].
        by rewrite decide_True.
      * exists k. rewrite Swap_lookup by done.
        by rewrite !decide_False.
Qed.

Lemma Less_spec (h : lineHeap) (i j : nat) (a b : heapItem) :
  h !! i = Some a -> h !! j = Some b ->
  Less h i j = true <-> ts a < ts b.
Proof.
  unfold lineHeap in *.
  intros Ha Hb. unfold Less, Before, ts, lineHeap. rewrite Ha, Hb. apply Z.ltb_lt.
Qed.

Lemma Less_false (h : lineHeap) (i j : nat) (a b : heapItem) :
  h !! i = Some a -> h !! j = Some b ->
  Less h i j = false <-> ts b <= ts a.
Proof.
  unfold lineHeap in *.
  intros Ha Hb. unfold Less, Before, ts, lineHeap. rewrite Ha, Hb. apply Z.ltb_ge.
Qed.

Lemma up_loop_length (fuel : nat) :
  forall h j, length (heap.up_loop fuel h j) = length h.
Proof.
  unfold lineHeap in *.
  induction fuel as [| fuel IH]; intros h j; cbn [heap.up_loop]; [done |].
  destruct (_ || _); [done |]. by rewrite IH, Swap_length.
Qed.

Lemma up_loop_elem_of (fuel : nat) (x : heapItem) :
  forall h j, x ∈ heap.up_loop fuel h j <-> x ∈ h.
Proof.
  unfold lineHeap in *.
  induction fuel as [| fuel IH]; intros h j; cbn [heap.up_loop]; [done |].
  destruct (_ || _); [done |]. by rewrite IH, Swap_elem_of.
Qed.

(** One step of [heap.up]: swapping the element at [j] with a later parent
    moves the exception to the parent. *)
Lemma orderedButUp_step (h : lineHeap) (j : nat) (a b : heapItem) :
  (0 < j < length h)%nat ->
  h !! j = Some a -> h !! ((j - 1) / 2)%nat = Some b -> ts a < ts b ->
  orderedButUp h j ->
  orderedButUp (Swap h ((j - 1) / 2) j) ((j - 1) / 2).
Proof.
  unfold lineHeap in *.
  intros Hj Ha Hb Hlt [Hord Hgrand].
  set (i := ((j - 1) / 2)%nat) in *.
  assert (i < j)%nat as Hij by (unfold i; lia).
  assert (forall k, Swap h i j !! k =
            if decide (k = j) then h !! i
            else if decide (k = i) then h !! j else h !! k) as HS
    by (intros k; apply Swap_lookup; lia).
  split.
  - intros k x p Hk Hki. rewrite Swap_length in Hk. rewrite !HS.
    destruct (decide (k = j)) as [-> | Hkj].
    + fold i. rewrite decide_False by lia. rewrite decide_True by done.
      rewrite Hb, Ha. intros [= <-] [= <-]. lia.
    + rewrite (decide_False (P := k = i)) by done. intros Hx.
      destruct (decide (((k - 1) / 2)%nat = j)) as [Hpj | Hpj].
      * rewrite Hb. intros [= <-].
        eapply (Hgrand k x b); eauto; lia.
      * destruct (decide (((k - 1) / 2)%nat = i)) as [Hpi | Hpi].
        -- rewrite Ha. intros [= <-].
           assert (ts b <= ts x); [| lia].
           eapply (Hord k x b); eauto. by rewrite Hpi.
        -- intros Hp. eapply (Hord k x p); eauto.
  - intros c x g Hi Hc Hpc. rewrite Swap_length in Hc. rewrite !HS.
    assert (((i - 1) / 2)%nat <> j) by lia.
    assert (((i - 1) / 2)%nat <> i) by lia.
    rewrite (decide_False (P := ((i - 1) / 2)%nat = j)) by done.
    rewrite (decide_False (P := ((i - 1) / 2)%nat = i)) by done.
    assert (forall g', h !! ((i - 1) / 2)%nat = Some g' -> ts g' <= ts b)
      as Hgb.
    { intros g' Hg'. eapply (Hord i b g'); eauto; lia. }
    destruct (decide (c = j)) as [-> | Hcj].
    + rewrite Hb. intros [= <-] Hg. by apply Hgb.
    + rewrite decide_False by lia. intros Hx Hg.
      assert (ts b <= ts x).
      { eapply (Hord c x b); eauto. by rewrite Hpc. }
      specialize (Hgb g Hg). lia.
Qed.

(** [heap.up] restores the heap order. *)
Lemma up_loop_heapOrdered (fuel : nat) :
  forall h j, (j < length h)%nat -> (j < fuel)%nat ->
  orderedButUp h j -> heapOrdered (heap.up_loop fuel h j).
Proof.
  unfold lineHeap in *.
  induction fuel as [| fuel IH]; intros h j Hj Hfuel Hinv; [lia |].
  cbn [heap.up_loop].
  destruct (lookup_lt_is_Some_2 h j Hj) as [a Ha].
  destruct (lookup_lt_is_Some_2 h ((j - 1) / 2)) as [b Hb]; [lia |].
  destruct (Nat.eqb_spec ((j - 1) / 2) j) as [Heq | Hne]; cbn [orb].
  - assert (j = 0)%nat as -> by lia.
    intros k x p Hk. apply Hinv; lia.
  - destruct (Less h j ((j - 1) / 2)) eqn:Hless; cbn [negb].
    + apply IH.
      * rewrite Swap_length. lia.
      * lia.
      * apply (orderedButUp_step h j a b); try done; [lia |].
        by apply (Less_spec h j ((j - 1) / 2)).
    + apply (Less_false h j _ a b Ha Hb) in Hless.
      intros k x p Hk Hx Hp. unfold lineHeap in *.
      destruct (decide (k = j)) as [-> | Hkj].
      * rewrite Ha in Hx. rewrite Hb in Hp.
        injection Hx as <-. injection Hp as <-. done.
      * by apply (proj1 Hinv k x p).
Qed.

Lemma Push_heapOrdered (h : lineHeap) (x : heapItem) :
  heapOrdered h -> heapOrdered (heap.Push h x).
Proof.
  unfold lineHeap in *.
  intros Hh. unfold heap.Push, heap.up, Push, lineHeap in *.
  rewrite length_app. cbn [length].
  apply up_loop_heapOrdered; [rewrite length_app; cbn; lia | lia |].
  replace (length h + 1 - 1)%nat with (length h) by lia.
  split.
  - intros k y p Hk Hkj. unfold lineHeap in *.
    rewrite length_app in Hk. cbn in Hk.
    rewrite !lookup_app_l by lia. apply Hh. lia.
  - intros c y g Hj Hc Hpc. unfold lineHeap in *.
    rewrite length_app in Hc. cbn in Hc. lia.
Qed.

Lemma Push_elem_of (h : lineHeap) (x y : heapItem) :
  y ∈ heap.Push h x <-> y = x \/ y ∈ h.
Proof.
  unfold lineHeap in *.
  unfold heap.Push, heap.up, Push, lineHeap in *.
  rewrite up_loop_elem_of, elem_of_app, list_elem_of_singleton. tauto.
Qed.

Lemma Push_length (h : lineHeap) (x : heapItem) :
  length (heap.Push h x) = S (length h).
Proof.
  unfold lineHeap in *.
  unfold heap.Push, heap.up, Push, lineHeap in *.
  rewrite up_loop_length, length_app. cbn. lia.
Qed.

Lemma down_loop_length (fuel : nat) :
  forall h i n, length (heap.down_loop fuel h i n) = length h.
Proof.
  unfold lineHeap in *.
  induction fuel as [| fuel IH]; intros h i n; cbn [heap.down_loop]; [done |].
  destruct (n <=? 2 * i + 1)%nat; [done |].
  destruct (negb _); [done |]. by rewrite IH, Swap_length.
Qed.

Lemma down_loop_elem_of (fuel : nat) (x : heapItem) :
  forall h i n, x ∈ heap.down_loop fuel h i n <-> x ∈ h.
Proof.
  unfold lineHeap in *.
  induction fuel as [| fuel IH]; intros h i n; cbn [heap.down_loop]; [done |].
  destruct (n <=? 2 * i + 1)%nat; [done |].
  destruct (negb _); [done |]. by rewrite IH, Swap_elem_of.
Qed.

(** [heap.down] on the first [n] elements leaves the others alone. *)
Lemma down_loop_lookup_ge (fuel : nat) :
  forall h i n k, (n <= length h)%nat -> (i < n)%nat -> (n <= k)%nat ->
  heap.down_loop fuel h i n !! k = h !! k.
Proof.
  unfold lineHeap in *.
  induction fuel as [| fuel IH]; intros h i n k Hn Hi Hk;
    cbn [heap.down_loop]; [done |].
  destruct (Nat.leb_spec n (2 * i + 1)) as [| Hj1]; [done |].
  destruct (negb _); [done |].
  set (j := if (2 * i + 1 + 1 <? n)%nat && Less h (2 * i + 1 + 1) (2 * i + 1)
            then (2 * i + 1 + 1)%nat else (2 * i + 1)%nat).
  assert (i < j < n)%nat as Hj.
  { unfold j. destruct (Nat.ltb_spec (2 * i + 1 + 1) n); cbn [andb];
      [destruct (Less _ _ _) |]; lia. }
  rewrite IH by (rewrite ?Swap_length; lia).
  rewrite Swap_lookup by lia.
  by rewrite !decide_False by lia.
Qed.

(** One step of [heap.down]: swapping the element at [i] with its earlier
    child [j], when that child is earlier than it, moves the exception to
    [j]. *)
Lemma orderedButDown_step (h : lineHeap) (i j n : nat) (a b : heapItem) :
  (j < n)%nat -> (j = 2 * i + 1 \/ j = 2 * i + 2)%nat ->
  h !! i = Some a -> h !! j = Some b -> ts b < ts a ->
  (forall c x, (c < n)%nat -> (c = 2 * i + 1 \/ c = 2 * i + 2)%nat ->
               h !! c = Some x -> ts b <= ts x) ->
  orderedButDown h i n ->
  orderedButDown (Swap h i j) j n.
Proof.
  unfold lineHeap in *.
  intros Hj Hchild Ha Hb Hlt Hmin (Hn & Hord & Hgrand).
  assert (((j - 1) / 2)%nat = i) as Hpj by lia.
  assert (forall k, Swap h i j !! k =
            if decide (k = j) then h !! i
            else if decide (k = i) then h !! j else h !! k) as HS
    by (intros k; apply Swap_lookup; lia).
  split; [by rewrite Swap_length |]. split.
  - intros k x p Hk Hpk. rewrite !HS.
    destruct (decide (k = j)) as [-> | Hkj].
    + rewrite Hpj. rewrite decide_False by lia. rewrite decide_True by done.
      rewrite Ha, Hb. intros [= <-] [= <-]. lia.
    + rewrite (decide_False (P := ((k - 1) / 2)%nat = j)) by done.
      destruct (decide (k = i)) as [-> | Hki].
      * rewrite Hb. intros [= <-].
        rewrite decide_False by lia. intros Hp.
        eapply (Hgrand j b p); eauto; lia.
      * intros Hx.
        destruct (decide (((k - 1) / 2)%nat = i)) as [Hpi | Hpi].
        -- rewrite Hb. intros [= <-].
           apply (Hmin k x); [lia | lia | done].
        -- intros Hp. eapply (Hord k x p); eauto.
  - intros c x g Hj0 Hc Hpc. rewrite !HS.
    rewrite Hpj. rewrite (decide_False (P := i = j)) by lia.
    rewrite (decide_True (P := i = i)) by done.
    rewrite !decide_False by lia.
    rewrite Hb. intros Hx [= <-].
    eapply (Hord c x b); eauto; [lia |]. by rewrite Hpc.
Qed.

(** [heap.down] restores the heap order on the first [n] elements. *)
Lemma down_loop_heapOrdered (fuel : nat) :
  forall h i n, (n <= fuel + i)%nat ->
  orderedButDown h i n -> heapOrderedUpto n (heap.down_loop fuel h i n).
Proof.
  unfold lineHeap in *.
  induction fuel as [| fuel IH]; intros h i n Hfuel Hinv.
  - cbn [heap.down_loop]. destruct Hinv as (Hn & Hord & _).
    intros k x p Hk. apply Hord; lia.
  - cbn [heap.down_loop].
    destruct (Nat.leb_spec n (2 * i + 1)) as [Hleaf | Hj1].
    { destruct Hinv as (Hn & Hord & _).
      intros k x p Hk. apply Hord; lia. }
    pose proof Hinv as (Hn & Hord & Hgrand).
    destruct (lookup_lt_is_Some_2 h i) as [a Ha]; [lia |].
    destruct (lookup_lt_is_Some_2 h (2 * i + 1)) as [b1 Hb1]; [lia |].
    set (j := if (2 * i + 1 + 1 <? n)%nat && Less h (2 * i + 1 + 1) (2 * i + 1)
              then (2 * i + 1 + 1)%nat else (2 * i + 1)%nat).
    assert (exists b, h !! j = Some b /\
              (j < n)%nat /\ (j = 2 * i + 1 \/ j = 2 * i + 2)%nat /\
              forall c x, (c < n)%nat -> (c = 2 * i + 1 \/ c = 2 * i + 2)%nat ->
                          h !! c = Some x -> ts b <= ts x)
      as (b & Hb & Hjn & Hchild & Hmin).
    { unfold j. destruct (Nat.ltb_spec (2 * i + 1 + 1) n) as [Hj2 | Hj2];
        cbn [andb].
      - destruct (lookup_lt_is_Some_2 h (2 * i + 1 + 1)) as [b2 Hb2]; [lia |].
        destruct (Less h (2 * i + 1 + 1) (2 * i + 1)) eqn:Hless.
        + apply (Less_spec h _ _ b2 b1 Hb2 Hb1) in Hless.
          exists b2. split; [done |]. split; [lia |]. split; [lia |].
          intros c x Hc [-> | ->] Hx.
          * rewrite Hb1 in Hx. injection Hx as <-. lia.
          * replace (2 * i + 2)%nat with (2 * i + 1 + 1)%nat in Hx by lia.
            rewrite Hb2 in Hx. injection Hx as <-. lia.
        + apply (Less_false h _ _ b2 b1 Hb2 Hb1) in Hless.
          exists b1. split; [done |]. split; [lia |]. split; [lia |].
          intros c x Hc [-> | ->] Hx.
          * rewrite Hb1 in Hx. injection Hx as <-. lia.
          * replace (2 * i + 2)%nat with (2 * i + 1 + 1)%nat in Hx by lia.
            rewrite Hb2 in Hx. by injection Hx as <-.
      - exists b1. split; [done |]. split; [lia |]. split; [lia |].
        intros c x Hc [-> | ->] Hx; [| lia].
        rewrite Hb1 in Hx. injection Hx as <-. lia. }
    destruct (Less h j i) eqn:Hless; cbn [negb].
    + apply (Less_spec h j i b a Hb Ha) in Hless.
      apply IH; [lia |].
      by apply (orderedButDown_step h i j n a b).
    + apply (Less_false h j i b a Hb Ha) in Hless.
      intros k x p Hk Hx Hp. unfold lineHeap in *.
      destruct (decide (((k - 1) / 2)%nat = i)) as [Hpk | Hpk].
      * rewrite Hpk, Ha in Hp. injection Hp as <-.
        assert (ts b <= ts x); [| lia].
        apply (Hmin k x); [lia | lia | done].
      * by apply (Hord k x p).
Qed.

(** The root of an ordered heap is no later than any element. *)
Lemma heapOrdered_root (h : lineHeap) (r : heapItem) :
  heapOrdered h -> h !! 0%nat = Some r ->
  forall k y, h !! k = Some y -> ts r <= ts y.
Proof.
  unfold lineHeap in *.
  intros Hh Hr k. induction k as [k IH] using lt_wf_ind. intros y Hy.
  destruct (decide (k = 0)%nat) as [-> | Hk].
  - rewrite Hr in Hy. injection Hy as <-. lia.
  - pose proof (lookup_lt_Some _ _ _ Hy) as Hlen.
    destruct (lookup_lt_is_Some_2 h ((k - 1) / 2)) as [p Hp]; [lia |].
    assert (ts r <= ts p) by (apply (IH ((k - 1) / 2)%nat); [lia | done]).
    assert (ts p <= ts y) by (apply (Hh k y p); [lia | done | done]).
    lia.
Qed.

Lemma heapOrdered_root_elem_of (h : lineHeap) (r y : heapItem) :
  heapOrdered h -> h !! 0%nat = Some r -> y ∈ h -> ts r <= ts y.
Proof.
  unfold lineHeap in *.
  intros Hh Hr [k Hk]%list_elem_of_lookup.
  by apply (heapOrdered_root h r Hh Hr k).
Qed.

(** [heap.Pop] on an ordered heap returns the root and leaves an ordered
    heap with the other elements. *)
Lemma Pop_spec (h : lineHeap) (r : heapItem) :
  heapOrdered h -> h !! 0%nat = Some r ->
  exists h',
    heap.Pop h = Some (r, h') /\ heapOrdered h' /\
    S (length h') = length h /\
    (forall y, y ∈ h <-> y = r \/ y ∈ h').
Proof.
  unfold lineHeap in *.
  intros Hh Hr. pose proof (lookup_lt_Some _ _ _ Hr) as Hlen.
  unfold heap.Pop, heap.down.
  set (n := (length h - 1)%nat).
  set (h1 := Swap h 0 n).
  set (h2 := heap.down_loop n h1 0 n).
  assert (length h1 = length h) as Hlen1 by apply Swap_length.
  assert (length h2 = length h) as Hlen2
    by (unfold h2; by rewrite down_loop_length).
  assert (h1 !! n = Some r) as Hr1.
  { unfold h1. rewrite Swap_lookup by lia. by rewrite decide_True. }
  assert (h2 !! n = Some r) as Hr2.
  { unfold h2. destruct (decide (n = 0)%nat) as [Hn | Hn].
    - rewrite Hn in *. done.
    - rewrite down_loop_lookup_ge by lia. done. }
  assert (h2 = take n h2 ++ [r]) as Hsplit.
  { rewrite <- (take_S_r _ _ _ Hr2). symmetry. apply take_ge. lia. }
  exists (take n h2). split; [| split; [| split]].
  - unfold Pop, lineHeap in *. rewrite Hsplit at 1.
    rewrite last_snoc. rewrite Hsplit at 1.
    by rewrite removelast_last.
  - assert (heapOrderedUpto n h2) as Hord.
    { unfold h2. apply down_loop_heapOrdered; [lia |].
      split; [lia |]. split; [| intros; lia].
      intros k x p Hk Hpk. unfold h1. rewrite !Swap_lookup by lia.
      rewrite !decide_False by lia. apply Hh. lia. }
    unfold heapOrdered, heapOrderedUpto, lineHeap in *.
    rewrite length_take_le by lia.
    intros k x p Hk. rewrite !lookup_take_lt by lia. by apply Hord.
  - rewrite length_take_le by lia. lia.
  - intros y.
    assert (y ∈ h <-> y ∈ h2) as ->.
    { unfold h2, h1. by rewrite down_loop_elem_of, Swap_elem_of. }
    rewrite Hsplit at 1. rewrite elem_of_app, list_elem_of_singleton. tauto.
Qed.

Lemma Pop_empty : heap.Pop [] = None.
Proof. reflexivity. Qed.

Lemma Init_empty : heap.Init [] = [].
Proof. reflexivity. Qed.

End HeapFacts.

Section MergedFacts.

Import MergedSource.

Lemma chronological_cons (l : ParsedLine) (ls : list ParsedLine) :
  chronological (l :: ls) ->
  Forall (fun x => Timestamp l <= Timestamp x) ls /\ chronological ls.
Proof. intros H. apply StronglySorted_inv in H. tauto. Qed.

(** A source that is used up gives [initHeap] nothing. *)
Lemma initHeap_loop_exhausted (rest : list LogSource) :
  Forall (fun src => src = []) rest ->
  forall i h, initHeap_loop rest i h = (rest, h, None).
Proof.
  induction 1 as [| src rest -> _ IH]; intros i h; cbn [initHeap_loop]; [done |].
  cbn [LogSource_Next]. by rewrite IH.
Qed.

(** [initHeap], when it meets no error, leaves the merged source seeded. *)
Lemma initHeap_loop_seeds (c : bool) (rest : list LogSource) :
  forall pre h rest' h',
  initHeap_loop rest (length pre) h = (rest', h', None) ->
  seeded {| sources := pre; mheap := h; closed := c |} ->
  Forall (fun src => chronological (records src)) rest ->
  seeded {| sources := pre ++ rest'; mheap := h'; closed := c |}.
Proof.
  induction rest as [| src rest IH]; intros pre h rest' h' Hloop Hseed Hrest.
  - cbn in Hloop. injection Hloop as <- <-. by rewrite app_nil_r.
  - apply Forall_cons in Hrest as [Hsrc Hrest].
    destruct Hseed as (Hord & Hitems & Hsorted & Hheld).
    cbn [sources mheap] in Hord, Hitems, Hsorted, Hheld.
    destruct src as [| [l | err] src'].
    + (* io.EOF *)
      cbn [initHeap_loop LogSource_Next] in Hloop.
      replace (S (length pre)) with (length (pre ++ [[]])) in Hloop
        by (rewrite length_app; cbn; lia).
      destruct (initHeap_loop rest (length (pre ++ [[]])) h)
        as [[rest'' h''] err''] eqn:Hrec.
      injection Hloop as <- <- ->.
      assert (seeded {| sources := pre ++ [[]]; mheap := h; closed := c |})
        as Hpre; [| pose proof (IH _ _ _ _ Hrec Hpre Hrest) as Hres;
                    by rewrite <- app_assoc in Hres].
      split; [done |]. cbn. split; [| split].
      * intros it Hit. destruct (Hitems it Hit) as (src & Hsrc' & Hle).
        exists src. split; [| done].
        rewrite lookup_app_l; [done |]. by eapply lookup_lt_Some.
      * apply Forall_app. split; [done |]. repeat constructor.
      * intros i src Hi Hne. apply (Hheld i src); [| done].
        apply lookup_app_Some in Hi as [Hi | [_ Hi]]; [done |].
        apply list_lookup_singleton_Some in Hi as [_ <-]. done.
    + (* a first line *)
      cbn [initHeap_loop LogSource_Next] in Hloop.
      replace (S (length pre)) with (length (pre ++ [src'])) in Hloop
        by (rewrite length_app; cbn; lia).
      destruct (initHeap_loop rest (length (pre ++ [src']))
                  (heap.Push h {| line := l; sourceIdx := length pre |}))
        as [[rest'' h''] err''] eqn:Hrec.
      injection Hloop as <- <- ->.
      cbn in Hsrc. apply chronological_cons in Hsrc as [Hfirst Hsrc'].
      assert (seeded {| sources := pre ++ [src'];
                        mheap := heap.Push h {| line := l;
                                                sourceIdx := length pre |};
                        closed := c |})
        as Hpre; [| pose proof (IH _ _ _ _ Hrec Hpre Hrest) as Hres;
                    by rewrite <- app_assoc in Hres].
      split; [by apply Push_heapOrdered |]. cbn. split; [| split].
      * intros it Hit. apply Push_elem_of in Hit as [-> | Hit].
        -- exists src'. cbn. split; [| done].
           by rewrite lookup_app_r, Nat.sub_diag by lia.
        -- destruct (Hitems it Hit) as (src & Hsrc & Hle).
           exists src. split; [| done].
           rewrite lookup_app_l; [done |]. by eapply lookup_lt_Some.
      * apply Forall_app. split; [done |]. by repeat constructor.
      * intros i src Hi Hne.
        apply lookup_app_Some in Hi as [Hi | [Hlen Hi]].
        -- destruct (Hheld i src Hi Hne) as (it & Hit & Hidx).
           exists it. split; [| done]. apply Push_elem_of. by right.
        -- apply list_lookup_singleton_Some in Hi as [Hi <-].
           exists {| line := l; sourceIdx := length pre |}.
           split; [apply Push_elem_of; by left |]. cbn.
           unfold LogSource in *. lia.
    + (* an error *)
      cbn [initHeap_loop LogSource_Next] in Hloop. done.
Qed.

(** One pull from a seeded merged source: the record returned is the one
    at the root of the heap, the state stays seeded, and nothing left in the
    heap is earlier than the record. *)
Lemma popAndRefill_seeded (m m' : MergedSource) (l : ParsedLine) :
  seeded m -> popAndRefill m = (GotLine l, m') ->
  seeded m' /\
  (exists r, mheap m !! 0%nat = Some r /\ l = line r) /\
  (forall it, it ∈ mheap m' -> Timestamp l <= ts it).
Proof.
  intros (Hord & Hitems & Hsorted & Hheld) Hpop.
  unfold popAndRefill in Hpop. unfold LogSource in *.
  destruct (mheap m !! 0%nat) as [r |] eqn:Hroot.
  2: { destruct (mheap m) eqn:Hh; [| done]. by rewrite Pop_empty in Hpop. }
  destruct (Pop_spec (mheap m) r Hord Hroot) as (h' & HPop & Hord' & _ & Helems).
  rewrite HPop in Hpop.
  assert (r ∈ mheap m) as Hr by (apply list_elem_of_lookup; eauto).
  destruct (Hitems r Hr) as (src & Hsrc & Hle).
  rewrite Hsrc in Hpop.
  assert (forall it, it ∈ h' -> ts r <= ts it) as Hmin.
  { intros it Hit. apply (heapOrdered_root_elem_of (mheap m) r it Hord Hroot).
    apply Helems. by right. }
  pose proof (lookup_lt_Some _ _ _ Hsrc) as Hlen.
  destruct src as [| [nl | err] src']; cbn [LogSource_Next] in Hpop.
  - (* the source is used up *)
    injection Hpop as <- <-.
    rewrite (list_insert_id _ _ _ Hsrc).
    split; [| split; [by exists r | done]].
    split; [done |]. cbn [sources mheap]. split; [| split; [done |]].
    + intros it Hit. apply Hitems, Helems. by right.
    + intros i s Hi Hne. destruct (Hheld i s Hi Hne) as (it & Hit & Hidx).
      exists it. split; [| done].
      apply Helems in Hit as [-> | Hit]; [| done].
      unfold LogSource in *.
      rewrite Hidx, Hi in Hsrc. injection Hsrc as ->. done.
  - (* the source gives its next line *)
    injection Hpop as <- <-.
    pose proof (proj1 (Forall_lookup _ _) Hsorted _ _ Hsrc) as Hchron.
    cbn [records] in Hchron, Hle.
    apply chronological_cons in Hchron as [Hfirst Hchron].
    apply Forall_cons in Hle as [Hnl Hle].
    split; [| split; [by exists r |]].
    + split; [by apply Push_heapOrdered |]. cbn [sources mheap].
      split; [| split].
      * intros it Hit. apply Push_elem_of in Hit as [-> | Hit].
        -- exists src'. cbn [sourceIdx ts line].
           split; [by apply list_lookup_insert_eq | done].
        -- destruct (Hitems it (proj2 (Helems it) (or_intror Hit)))
             as (s & Hs & Hles).
           destruct (decide (sourceIdx it = sourceIdx r)) as [Heq | Hne].
           ++ exists src'. rewrite Heq.
              split; [by apply list_lookup_insert_eq |].
              rewrite Heq, Hsrc in Hs. injection Hs as <-.
              cbn [records] in Hles. by apply Forall_cons in Hles as [_ ?].
           ++ exists s. split; [| done].
              by rewrite list_lookup_insert_ne.
      * by apply Forall_insert.
      * intros i s Hi Hne.
        destruct (decide (i = sourceIdx r)) as [-> | Hneq].
        -- exists {| line := nl; sourceIdx := sourceIdx r |}.
           split; [apply Push_elem_of; by left | done].
        -- rewrite list_lookup_insert_ne in Hi by done.
           destruct (Hheld i s Hi Hne) as (it & Hit & Hidx).
           exists it. split; [| done]. apply Push_elem_of. right.
           apply Helems in Hit as [-> | Hit]; [done | done].
    + cbn [mheap]. intros it Hit.
      apply Push_elem_of in Hit as [-> | Hit]; [exact Hnl | by apply Hmin].
  - (* the source fails *)
    done.
Qed.

(** On a seeded merged source [Next] is the pull alone: a heap that is
    empty is not filled again. *)
Lemma Next_seeded (m m' : MergedSource) (l : ParsedLine) :
  seeded m -> Next m = (GotLine l, m') -> popAndRefill m = (GotLine l, m').
Proof.
  intros Hseed. pose proof Hseed as (_ & _ & _ & Hheld).
  unfold Next, lineHeap.Len, len.
  destruct (mheap m) as [| it h] eqn:Hh; cbn [length]; [| done].
  change (Z.of_nat 0 =? 0) with true. cbn [andb].
  destruct (closed m); cbn [negb]; [done |].
  unfold initHeap. rewrite Hh, Init_empty.
  rewrite initHeap_loop_exhausted; [done |].
  apply Forall_lookup. intros i src Hi.
  destruct src as [| o src']; [done |].
  destruct (Hheld i _ Hi ltac:(done)) as (it & Hit & _).
  by apply elem_of_nil in Hit.
Qed.

(** The records drained from a seeded merged source are chronological and
    no earlier than a lower bound of the heap. *)
Lemma drain_seeded (fuel : nat) :
  forall m lb,
  seeded m -> (forall it, it ∈ mheap m -> lb <= ts it) ->
  chronological (drain fuel m).1 /\
  Forall (fun l => lb <= Timestamp l) (drain fuel m).1.
Proof.
  induction fuel as [| fuel IH]; intros m lb Hseed Hlb; cbn [drain].
  - split; constructor.
  - destruct (Next m) as [[l | | err] m'] eqn:HN;
      [| split; constructor | split; constructor].
    apply (Next_seeded m m' l Hseed) in HN.
    destruct (popAndRefill_seeded m m' l Hseed HN)
      as (Hseed' & (r & Hroot & ->) & Hmin).
    destruct (IH m' (Timestamp (line r)) Hseed' Hmin) as [Hchron Hall].
    destruct (drain fuel m') as [ls res]. cbn [fst] in *.
    assert (lb <= Timestamp (line r)) as Hr.
    { apply (Hlb r). apply list_elem_of_lookup. eauto. }
    split.
    + by constructor.
    + constructor; [done |].
      eapply Forall_impl; [exact Hall |]. cbn. intros x Hx. lia.
Qed.

End MergedFacts.

(** The records a consumer obtains from a merged source over sources that
    are each chronological are chronological: no record is earlier than the
    one before it. *)
Theorem merged_source_is_chronological
    (srcs : list LogSource) (fuel : nat) :
  Forall (fun src => chronological (records src)) srcs ->
  chronological (MergedSource.drain fuel (NewMergedSource srcs)).1.
Proof.
  intros Hsrcs. destruct fuel as [| fuel]; [constructor |].
  cbn [MergedSource.drain].
  destruct (MergedSource.Next (NewMergedSource srcs)) as [[l | | err] m'] eqn:HN;
    [| constructor | constructor].
  unfold MergedSource.Next, NewMergedSource in HN. cbn in HN.
  unfold MergedSource.initHeap in HN. cbn [sources mheap closed] in HN.
  rewrite Init_empty in HN.
  destruct (MergedSource.initHeap_loop srcs 0 []) as [[srcs' h] err] eqn:Hloop.
  destruct err as [e |]; [done |].
  assert (seeded {| sources := srcs'; mheap := h; closed := false |}) as Hseed.
  { apply (initHeap_loop_seeds false srcs [] [] srcs' h Hloop); [| done].
    split; [by intros k x p Hk |]. cbn.
    split; [by intros it ?%elem_of_nil |]. split; [constructor |].
    intros i src Hi. by rewrite lookup_nil in Hi. }
  cbn [mheap] in HN.
  destruct (lineHeap.Len h =? 0); [done |].
  destruct (popAndRefill_seeded _ _ _ Hseed HN) as (Hseed' & _ & Hmin).
  destruct (drain_seeded fuel m' (Timestamp l) Hseed' Hmin) as [Hchron Hall].
  destruct (MergedSource.drain fuel m') as [ls res]. cbn [fst] in *.
  by constructor.
Qed.


Lemma merged_source_is_chronological_witness :
  chronological (MergedSource.drain 10 (NewMergedSource [fileA; fileB])).1 /\
  map Source (MergedSource.drain 10 (NewMergedSource [fileA; fileB])).1
  = ["a.log"; "b.log"; "a.log"; "b.log"; "a.log"]%string.
Proof.
  split; [| reflexivity].
  apply merged_source_is_chronological.
  repeat constructor; vm_compute; discriminate.
Defined.

Section MergedSteps.

Import MergedSource.

Lemma Len_zero (h : lineHeap) : (lineHeap.Len h =? 0) = true <-> h = [].
Proof.
  unfold lineHeap.Len, len. rewrite Z.eqb_eq.
  destruct h; cbn [length]; split; intros; try done; lia.
Qed.

Lemma heapOrdered_nil : heapOrdered [].
Proof. intros k x p Hk. cbn in Hk. lia. Qed.

End MergedSteps.

(** When the heap holds records, [Next] returns one of them that is no
    later than any other, and leaves the heap ordered. *)
Theorem Next_returns_an_earliest_record
    (m m' : MergedSource) (l : ParsedLine) :
  heapOrdered (mheap m) ->
  mheap m <> [] ->
  MergedSource.Next m = (GotLine l, m') ->
  (exists it, it ∈ mheap m /\ l = line it) /\
  (forall it, it ∈ mheap m -> Timestamp l <= ts it) /\
  heapOrdered (mheap m').
Proof.
  intros Hord Hne HN. unfold MergedSource.Next in HN.
  destruct (lineHeap.Len (mheap m) =? 0) eqn:Hlen.
  { apply Len_zero in Hlen. done. }
  cbn [andb] in HN. unfold MergedSource.popAndRefill in HN.
  destruct (mheap m !! 0%nat) as [r |] eqn:Hroot;
    [| by destruct (mheap m)].
  destruct (Pop_spec (mheap m) r Hord Hroot) as (h' & HPop & Hord' & _ & Helems).
  rewrite HPop in HN.
  assert (r ∈ mheap m) as Hr by (apply list_elem_of_lookup; eauto).
  assert (forall it, it ∈ mheap m -> ts r <= ts it) as Hmin
    by (intros it; apply heapOrdered_root_elem_of; done).
  destruct (sources m !! sourceIdx r) as [src |]; [| done].
  destruct src as [| [nl | err] src']; cbn [LogSource_Next] in HN;
    [| | done]; injection HN as <- <-; cbn [mheap].
  - split; [by exists r |]. split; [exact Hmin | exact Hord'].
  - split; [by exists r |]. split; [exact Hmin |]. by apply Push_heapOrdered.
Qed.

Lemma Next_returns_an_earliest_record_witness :
  exists l m',
    MergedSource.Next mergedAfterFirst = (GotLine l, m') /\
    Raw l = "B first"%string /\
    forall it, it ∈ mheap mergedAfterFirst -> Timestamp l <= ts it.
Proof.
  eexists. eexists. split; [vm_compute; reflexivity |].
  split; [reflexivity |].
  eapply (Next_returns_an_earliest_record mergedAfterFirst).
  - intros k x p Hk. vm_compute in Hk.
    destruct k as [| [| k]]; [lia | | lia].
    intros Hx Hp. vm_compute in Hx, Hp.
    injection Hx as <-. injection Hp as <-. vm_compute. discriminate.
  - vm_compute. discriminate.
  - vm_compute. reflexivity.
Defined.

(** When the source of the record at the root fails as it is asked for its
    next line, [Next] returns that error, and the record that was popped is
    neither returned nor kept. *)
Theorem Next_drops_the_record_when_refill_fails
    (m : MergedSource) (r : heapItem) (err : string) (src' : LogSource) :
  heapOrdered (mheap m) ->
  mheap m !! 0%nat = Some r ->
  sources m !! sourceIdx r = Some (OErr err :: src') ->
  exists m',
    MergedSource.Next m = (Failed err, m') /\
    S (length (mheap m')) = length (mheap m) /\
    (forall it, it ∈ mheap m <-> it = r \/ it ∈ mheap m') /\
    sources m' = <[sourceIdx r := src']> (sources m).
Proof.
  intros Hord Hroot Hsrc. unfold MergedSource.Next.
  destruct (lineHeap.Len (mheap m) =? 0) eqn:Hlen.
  { apply Len_zero in Hlen. by rewrite Hlen in Hroot. }
  cbn [andb]. unfold MergedSource.popAndRefill.
  destruct (Pop_spec (mheap m) r Hord Hroot) as (h' & HPop & _ & Hlen' & Helems).
  rewrite HPop. unfold LogSource in *. rewrite Hsrc. cbn [LogSource_Next].
  eexists. split; [reflexivity |]. cbn [mheap sources]. done.
Qed.

Lemma Next_drops_the_record_when_refill_fails_witness :
  exists m',
    MergedSource.Next mergedFailing = (Failed "read error", m') /\
    map (fun it => Raw (line it)) (mheap mergedFailing)
    = ["B first"; "A first"]%string /\
    map (fun it => Raw (line it)) (mheap m') = ["A first"]%string.
Proof.
  destruct (Next_drops_the_record_when_refill_fails mergedFailing
              {| line := {| Raw := "B first"; Timestamp := at_ (-1);
                            Source := "b.log"; LineNum := 1 |};
                 sourceIdx := 1 |} "read error" [])
    as (m' & HN & _).
  - intros k x p Hk. vm_compute in Hk.
    destruct k as [| [| k]]; [lia | | lia].
    intros Hx Hp. vm_compute in Hx, Hp.
    injection Hx as <-. injection Hp as <-. vm_compute. discriminate.
  - reflexivity.
  - reflexivity.
  - exists m'. split; [exact HN |]. split; [reflexivity |].
    vm_compute in HN. injection HN as <-. reflexivity.
Defined.

(** ** The merged source neither loses nor repeats a record *)

Section HeapPermutation.

Import lineHeap.

Lemma insert_Permutation {A} (l : list A) (i : nat) (a b : A) :
  l !! i = Some a -> <[i := b]> l ≡ₚ b :: delete i l.
Proof.
  intros Ha. pose proof (lookup_lt_Some _ _ _ Ha) as Hi.
  rewrite insert_take_drop by done. rewrite delete_take_drop.
  symmetry. apply Permutation_middle.
Qed.

Lemma Swap_Permutation (h : lineHeap) (i j : nat) : Swap h i j ≡ₚ h.
Proof.
  unfold Swap, lineHeap in *.
  destruct (h !! i) as [a |] eqn:Ha; [| done].
  destruct (h !! j) as [b |] eqn:Hb; [| done].
  assert (<[i := b]> h !! j = Some b) as Hb1.
  { destruct (decide (i = j)) as [-> | Hij].
    - apply list_lookup_insert_eq. by eapply lookup_lt_Some.
    - by rewrite list_lookup_insert_ne. }
  etransitivity; [apply (insert_Permutation _ j b a Hb1) |].
  etransitivity; [| symmetry; apply (delete_Permutation h i a Ha)].
  apply perm_skip. apply Permutation_cons_inv with b.
  etransitivity; [symmetry; apply (delete_Permutation _ j b Hb1) |].
  exact (insert_Permutation h i a b Ha).
Qed.

Lemma up_loop_Permutation (fuel : nat) :
  forall h j, heap.up_loop fuel h j ≡ₚ h.
Proof.
  induction fuel as [| fuel IH]; intros h j; cbn [heap.up_loop]; [done |].
  destruct (_ || _); [done |]. by rewrite IH, Swap_Permutation.
Qed.

Lemma down_loop_Permutation (fuel : nat) :
  forall h i n, heap.down_loop fuel h i n ≡ₚ h.
Proof.
  induction fuel as [| fuel IH]; intros h i n; cbn [heap.down_loop]; [done |].
  destruct (n <=? 2 * i + 1)%nat; [done |].
  destruct (negb _); [done |]. by rewrite IH, Swap_Permutation.
Qed.

Lemma Push_Permutation (h : lineHeap) (x : heapItem) :
  heap.Push h x ≡ₚ x :: h.
Proof.
  unfold heap.Push, heap.up, Push.
  rewrite up_loop_Permutation. unfold lineHeap in *.
  symmetry. apply Permutation_cons_append.
Qed.

(** [heap.Pop] takes one element out, whatever the order of the heap. *)
Lemma Pop_Permutation (h h' : lineHeap) (x : heapItem) :
  heap.Pop h = Some (x, h') -> h ≡ₚ x :: h'.
Proof.
  unfold heap.Pop, heap.down, Pop.
  set (h2 := heap.down_loop _ _ _ _).
  assert (h2 ≡ₚ h) as Hperm
    by (unfold h2; by rewrite down_loop_Permutation, Swap_Permutation).
  unfold lineHeap in *.
  destruct (last h2) as [y |] eqn:Hlast; [| done].
  intros [= <- <-]. apply last_Some in Hlast as [l' Hl'].
  rewrite <- Hperm, Hl', removelast_last.
  symmetry. apply Permutation_cons_append.
Qed.

Lemma Pop_None (h : lineHeap) : heap.Pop h = None <-> h = [].
Proof.
  split; [| by intros ->].
  unfold heap.Pop, heap.down, Pop.
  set (h2 := heap.down_loop _ _ _ _).
  assert (length h2 = length h) as Hlen
    by (unfold h2; by rewrite down_loop_length, Swap_length).
  unfold lineHeap in *.
  destruct (last h2) as [y |] eqn:Hlast; [done |]. intros _.
  apply last_None in Hlast. rewrite Hlast in Hlen.
  by destruct h.
Qed.

End HeapPermutation.

Section MergedComplete.

Import MergedSource.

Lemma pendingOutcomes_cons (src : LogSource) (srcs : list LogSource) :
  pendingOutcomes (src :: srcs) = (length src + pendingOutcomes srcs)%nat.
Proof. reflexivity. Qed.

Lemma pendingOutcomes_insert (srcs : list LogSource) :
  forall i a b, srcs !! i = Some a ->
  (pendingOutcomes (<[i := b]> srcs) + length a
   = pendingOutcomes srcs + length b)%nat.
Proof.
  induction srcs as [| x srcs IH]; intros i a b Ha; [done |].
  destruct i as [| i]; cbn in Ha.
  - injection Ha as ->. cbn [insert list_insert].
    rewrite !pendingOutcomes_cons. unfold LogSource in *. lia.
  - change (<[S i := b]> (x :: srcs)) with (x :: <[i := b]> srcs).
    rewrite !pendingOutcomes_cons. specialize (IH i a b Ha).
    unfold LogSource in *. lia.
Qed.

Lemma unread_cons (src : LogSource) (srcs : list LogSource) :
  unread (src :: srcs) = records src ++ unread srcs.
Proof. reflexivity. Qed.

Lemma unread_app (l k : list LogSource) : unread (l ++ k) = unread l ++ unread k.
Proof. unfold unread. by rewrite map_app, concat_app. Qed.

Lemma unread_insert (srcs : list LogSource) :
  forall i l src', srcs !! i = Some (OLine l :: src') ->
  l :: unread (<[i := src']> srcs) ≡ₚ unread srcs.
Proof.
  induction srcs as [| x srcs IH]; intros i l src' Hi; [done |].
  destruct i as [| i]; cbn in Hi.
  - injection Hi as ->. cbn [insert list_insert]. by rewrite !unread_cons.
  - change (<[S i := src']> (x :: srcs)) with (x :: <[i := src']> srcs).
    rewrite !unread_cons. rewrite <- (IH i l src' Hi).
    apply Permutation_middle.
Qed.

(** Whatever it meets, [initHeap] adds nothing to what is pending. *)
Lemma initHeap_loop_pending (rest : list LogSource) :
  forall i h rest' h' err,
  initHeap_loop rest i h = (rest', h', err) ->
  (length h' + pendingOutcomes rest' <= length h + pendingOutcomes rest)%nat.
Proof.
  induction rest as [| src rest IH]; intros i h rest' h' err Hloop.
  - cbn in Hloop. injection Hloop as <- <- <-. lia.
  - destruct src as [| [l | e] src']; cbn [initHeap_loop LogSource_Next] in Hloop.
    + destruct (initHeap_loop rest (S i) h) as [[r'' h''] e''] eqn:Hrec.
      injection Hloop as <- <- <-. apply IH in Hrec.
      rewrite !pendingOutcomes_cons. lia.
    + destruct (initHeap_loop rest (S i) _) as [[r'' h''] e''] eqn:Hrec.
      injection Hloop as <- <- <-. apply IH in Hrec.
      rewrite Push_length in Hrec. rewrite !pendingOutcomes_cons. cbn [length]. lia.
    + injection Hloop as <- <- <-. rewrite !pendingOutcomes_cons. cbn [length]. lia.
Qed.

(** A pull that returns a record takes one outcome out of what is
    pending. *)
Lemma popAndRefill_pending (m m' : MergedSource) (l : ParsedLine) :
  popAndRefill m = (GotLine l, m') -> S (pending m') = pending m.
Proof.
  unfold popAndRefill, pending.
  destruct (heap.Pop (mheap m)) as [[item h] |] eqn:HPop; [| done].
  apply Pop_Permutation in HPop. apply Permutation_length in HPop.
  cbn [length] in HPop.
  destruct (sources m !! sourceIdx item) as [src |] eqn:Hsrc; [| done].
  destruct src as [| [nl | e] src']; cbn [LogSource_Next]; [| | done];
    intros [= <- <-]; cbn [mheap sources].
  - rewrite (list_insert_id _ _ _ Hsrc). lia.
  - pose proof (pendingOutcomes_insert _ _ _ src' Hsrc) as Hins.
    rewrite Push_length. cbn [length] in Hins. unfold LogSource in *. lia.
Qed.

Lemma Next_pending (m m' : MergedSource) (l : ParsedLine) :
  Next m = (GotLine l, m') -> (pending m' < pending m)%nat.
Proof.
  unfold Next.
  destruct ((lineHeap.Len (mheap m) =? 0) && negb (closed m)) eqn:Hinit.
  - apply andb_prop in Hinit as [Hlen _]. apply Len_zero in Hlen.
    unfold initHeap. rewrite Hlen, Init_empty.
    destruct (initHeap_loop (sources m) 0 []) as [[srcs' h] err] eqn:Hloop.
    apply initHeap_loop_pending in Hloop.
    destruct err as [e |]; [intros [=] |]. cbn [mheap].
    destruct (lineHeap.Len h =? 0); [intros [=] |].
    intros HN. apply popAndRefill_pending in HN.
    unfold pending in *. cbn [mheap sources length] in *. rewrite Hlen.
    cbn [length]. lia.
  - destruct (lineHeap.Len (mheap m) =? 0); [intros [=] |].
    intros HN. apply popAndRefill_pending in HN. lia.
Qed.

Lemma drain_ends (fuel : nat) :
  forall m, (pending m < fuel)%nat -> is_Some (drain fuel m).2.
Proof.
  induction fuel as [| fuel IH]; intros m Hfuel; [lia |].
  cbn [drain].
  destruct (Next m) as [[l | | err] m'] eqn:HN; [| by eexists | by eexists].
  apply Next_pending in HN.
  specialize (IH m' ltac:(lia)).
  by destruct (drain fuel m').
Qed.

End MergedComplete.

(** The consumer loop over a merged source ends: [Next] returns [io.EOF]
    or an error after at most one call more than the sources hold
    outcomes. *)
Theorem merged_source_is_exhausted
    (srcs : list LogSource) (fuel : nat) :
  (pendingOutcomes srcs < fuel)%nat ->
  is_Some (MergedSource.drain fuel (NewMergedSource srcs)).2.
Proof. intros Hfuel. by apply drain_ends. Qed.

Lemma merged_source_is_exhausted_witness :
  (pendingOutcomes [fileA; fileB] < 6)%nat /\
  is_Some (MergedSource.drain 6 (NewMergedSource [fileA; fileB])).2.
Proof.
  assert (Hfuel : (pendingOutcomes [fileA; fileB] < 6)%nat) by (vm_compute; lia).
  split; [exact Hfuel |].
  exact (merged_source_is_exhausted [fileA; fileB] 6 Hfuel).
Defined.

Section MergedReady.

Import MergedSource.

Lemma neverFails_cases (src : LogSource) :
  neverFails src ->
  src = [] \/ exists l src', src = OLine l :: src' /\ neverFails src'.
Proof.
  intros Hsrc. destruct src as [| [l | e] src']; [by left | |].
  - right. exists l, src'. split; [done |]. by apply Forall_cons in Hsrc as [_ ?].
  - by apply Forall_cons in Hsrc as [[] _].
Qed.

(** Over sources that never fail [initHeap] meets no error, leaves the
    merged source ready and keeps every record. *)
Lemma initHeap_loop_ready (c : bool) (rest : list LogSource) :
  forall pre h,
  Forall neverFails rest ->
  ready {| sources := pre; mheap := h; closed := c |} ->
  exists rest' h',
    initHeap_loop rest (length pre) h = (rest', h', None) /\
    ready {| sources := pre ++ rest'; mheap := h'; closed := c |} /\
    map line h' ++ unread rest' ≡ₚ map line h ++ unread rest.
Proof.
  induction rest as [| src rest IH]; intros pre h Hrest Hready.
  - exists [], h. cbn [initHeap_loop]. by rewrite app_nil_r.
  - apply Forall_cons in Hrest as [Hsrc Hrest].
    destruct Hready as (Hvalid & Hheld & Hnofail).
    cbn [sources mheap] in Hvalid, Hheld, Hnofail.
    destruct (neverFails_cases src Hsrc) as [-> | (l & src' & -> & Hsrc')].
    + destruct (IH (pre ++ [[]]) h Hrest) as (rest' & h' & Hloop & Hready' & Hperm).
      { split; [| split]; cbn [sources mheap].
        - intros it Hit. rewrite length_app. cbn [length].
          specialize (Hvalid it Hit). lia.
        - intros i s Hi Hne.
          apply lookup_app_Some in Hi as [Hi | [_ Hi]]; [by apply (Hheld i s) |].
          apply list_lookup_singleton_Some in Hi as [_ <-]. done.
        - apply Forall_app. split; [done |]. by repeat constructor. }
      rewrite length_app in Hloop. cbn [length] in Hloop.
      replace (length pre + 1)%nat with (S (length pre)) in Hloop by lia.
      exists ([] :: rest'), h'. cbn [initHeap_loop LogSource_Next].
      rewrite Hloop. split; [done |].
      rewrite <- app_assoc in Hready'. cbn [app] in Hready'.
      split; [done |]. by rewrite !unread_cons.
    + set (x := {| line := l; sourceIdx := length pre |}).
      destruct (IH (pre ++ [src']) (heap.Push h x) Hrest)
        as (rest' & h' & Hloop & Hready' & Hperm).
      { split; [| split]; cbn [sources mheap].
        - intros it Hit. rewrite length_app. cbn [length].
          apply Push_elem_of in Hit as [-> | Hit]; [cbn; lia |].
          specialize (Hvalid it Hit). lia.
        - intros i s Hi Hne.
          apply lookup_app_Some in Hi as [Hi | [Hge Hi]].
          + destruct (Hheld i s Hi Hne) as (it & Hit & Hidx).
            exists it. split; [| done]. apply Push_elem_of. by right.
          + apply list_lookup_singleton_Some in Hi as [Hi _].
            exists x. split; [apply Push_elem_of; by left |]. cbn.
            unfold LogSource in *. lia.
        - apply Forall_app. split; [done |]. by repeat constructor. }
      rewrite length_app in Hloop. cbn [length] in Hloop.
      replace (length pre + 1)%nat with (S (length pre)) in Hloop by lia.
      exists (src' :: rest'), h'. cbn [initHeap_loop LogSource_Next].
      fold x. rewrite Hloop. split; [done |].
      rewrite <- app_assoc in Hready'. cbn [app] in Hready'.
      split; [done |]. rewrite !unread_cons. cbn [records].
      rewrite (Permutation_app_swap_app (map line h') (records src')).
      rewrite Hperm, (Push_Permutation h x), map_cons. cbn [line x app].
      rewrite <- !Permutation_middle.
      apply perm_skip, Permutation_app_swap_app.
Qed.

(** A pull from a ready merged source whose heap is not empty returns a
    record, leaves the merged source ready and keeps every other record. *)
Lemma popAndRefill_ready (m : MergedSource) :
  ready m -> mheap m <> [] ->
  exists l m',
    popAndRefill m = (GotLine l, m') /\ ready m' /\
    l :: content m' ≡ₚ content m.
Proof.
  intros (Hvalid & Hheld & Hnofail) Hne.
  unfold popAndRefill, content.
  destruct (heap.Pop (mheap m)) as [[item h] |] eqn:HPop.
  2: { by apply Pop_None in HPop. }
  apply Pop_Permutation in HPop.
  assert (forall it, it ∈ mheap m <-> it = item \/ it ∈ h) as Helems.
  { intros it. rewrite HPop. apply elem_of_cons. }
  assert (item ∈ mheap m) as Hitem by (apply Helems; by left).
  destruct (lookup_lt_is_Some_2 _ _ (Hvalid item Hitem)) as [src Hsrc].
  unfold LogSource in *. rewrite Hsrc.
  pose proof (proj1 (Forall_lookup _ _) Hnofail _ _ Hsrc) as Hfail.
  destruct (neverFails_cases src Hfail) as [-> | (nl & src' & -> & Hsrc')];
    cbn [LogSource_Next].
  - eexists _, _. split; [done |]. cbn [mheap sources].
    rewrite (list_insert_id _ _ _ Hsrc). split.
    + split; [| split]; cbn [mheap sources]; [| | done].
      * intros it Hit. apply Hvalid, Helems. by right.
      * intros i s Hi Hs. destruct (Hheld i s Hi Hs) as (it & Hit & Hidx).
        exists it. split; [| done].
        apply Helems in Hit as [-> | Hit]; [| done].
        unfold LogSource in *.
        rewrite Hidx, Hi in Hsrc. by injection Hsrc as ->.
    + by rewrite HPop.
  - set (x := {| line := nl; sourceIdx := sourceIdx item |}).
    eexists _, _. split; [done |]. cbn [mheap sources]. split.
    + split; [| split]; cbn [mheap sources].
      * intros it Hit. rewrite length_insert.
        apply Push_elem_of in Hit as [-> | Hit]; [by apply (Hvalid item) |].
        apply Hvalid, Helems. by right.
      * intros i s Hi Hs.
        destruct (decide (i = sourceIdx item)) as [-> | Hneq].
        -- exists x. split; [apply Push_elem_of; by left | done].
        -- rewrite list_lookup_insert_ne in Hi by done.
           destruct (Hheld i s Hi Hs) as (it & Hit & Hidx).
           exists it. split; [| done]. apply Push_elem_of. right.
           by apply Helems in Hit as [-> | Hit].
      * by apply Forall_insert.
    + rewrite (Push_Permutation h x), map_cons. cbn [line x app].
      rewrite Permutation_middle, (unread_insert _ _ _ _ Hsrc).
      by rewrite HPop.
Qed.

(** [Next] on a ready merged source: the end of the input when nothing is
    left, a record otherwise. *)
Lemma Next_ready (m : MergedSource) :
  ready m ->
  (exists m', Next m = (EOF, m') /\ content m = []) \/
  (exists l m', Next m = (GotLine l, m') /\ ready m' /\
                l :: content m' ≡ₚ content m).
Proof.
  intros Hready. destruct (mheap m) as [| it h] eqn:Hh.
  - left. pose proof Hready as (_ & Hheld & _).
    assert (Forall (fun src : LogSource => src = []) (sources m)) as Hempty.
    { apply Forall_lookup. intros i src Hi.
      destruct src as [| o src']; [done |].
      destruct (Hheld i _ Hi ltac:(done)) as (x & Hx & _).
      rewrite Hh in Hx. by apply elem_of_nil in Hx. }
    assert (content m = []) as Hcontent.
    { unfold content, unread. rewrite Hh. cbn [map app].
      clear -Hempty. induction Hempty as [| src srcs -> _ IH]; [done |].
      cbn [map concat records app]. exact IH. }
    unfold Next. rewrite Hh. cbn [lineHeap.Len len length].
    change (Z.of_nat 0 =? 0) with true. cbn [andb].
    destruct (closed m); cbn [negb]; [by eexists |].
    unfold initHeap. rewrite Hh, Init_empty.
    rewrite (initHeap_loop_exhausted _ Hempty). cbn [mheap lineHeap.Len len length].
    change (Z.of_nat 0 =? 0) with true. by eexists.
  - right. destruct (popAndRefill_ready m Hready) as (l & m' & Hpop & Hr & Hc).
    { by rewrite Hh. }
    exists l, m'. split; [| done].
    assert ((lineHeap.Len (mheap m) =? 0) = false) as Hlen.
    { rewrite Hh. unfold lineHeap.Len, len. cbn [length]. apply Z.eqb_neq. lia. }
    unfold Next. rewrite Hlen. cbn [andb]. exact Hpop.
Qed.

Lemma drain_ready (fuel : nat) :
  forall m, ready m -> (pending m < fuel)%nat ->
  exists ls, drain fuel m = (ls, Some EOF) /\ ls ≡ₚ content m.
Proof.
  induction fuel as [| fuel IH]; intros m Hready Hfuel; [lia |].
  cbn [drain].
  destruct (Next_ready m Hready)
    as [(m' & -> & ->) | (l & m' & HN & Hready' & Hcontent)].
  - by exists [].
  - rewrite HN. apply Next_pending in HN.
    destruct (IH m' Hready' ltac:(lia)) as (ls & -> & Hls).
    exists (l :: ls). split; [done |]. by rewrite Hls.
Qed.

End MergedReady.

(** Over sources that never fail, the consumer loop reaches [io.EOF] and
    has then obtained every record of every source exactly once. *)
Theorem merged_source_returns_every_record
    (srcs : list LogSource) (fuel : nat) :
  Forall neverFails srcs ->
  (pendingOutcomes srcs < fuel)%nat ->
  exists ls,
    MergedSource.drain fuel (NewMergedSource srcs) = (ls, Some EOF) /\
    ls ≡ₚ unread srcs.
Proof.
  intros Hsrcs Hfuel. destruct fuel as [| fuel]; [lia |].
  cbn [MergedSource.drain].
  unfold MergedSource.Next, NewMergedSource. cbn [mheap closed sources].
  cbn [lineHeap.Len len length]. change (Z.of_nat 0 =? 0) with true.
  cbn [andb negb]. unfold MergedSource.initHeap. cbn [sources mheap closed].
  rewrite Init_empty.
  destruct (initHeap_loop_ready false srcs [] [] Hsrcs)
    as (srcs' & h & Hloop & Hready & Hperm).
  { split; [| split]; cbn [sources mheap].
    - by intros it ?%elem_of_nil.
    - intros i src Hi. by rewrite lookup_nil in Hi.
    - constructor. }
  pose proof (initHeap_loop_pending _ _ _ _ _ _ Hloop) as Hpending.
  cbn [length app] in Hloop, Hready, Hperm, Hpending.
  rewrite Hloop.
  set (m1 := {| sources := srcs'; mheap := h; closed := false |}) in *.
  assert (pending m1 < S fuel)%nat as Hm1 by (unfold pending; cbn [mheap sources m1]; unfold lineHeap, LogSource in *; lia).
  pose proof (drain_ready (S fuel) m1 Hready Hm1) as (ls & Hdrain & Hls).
  cbn [MergedSource.drain] in Hdrain.
  assert (MergedSource.Next m1 =
          if lineHeap.Len h =? 0 then (EOF, m1) else MergedSource.popAndRefill m1)
    as HNext.
  { unfold MergedSource.Next. cbn [mheap closed m1].
    destruct (lineHeap.Len h =? 0) eqn:Hlen; [| done].
    cbn [andb negb]. apply Len_zero in Hlen. subst h.
    unfold MergedSource.initHeap. cbn [sources mheap closed m1]. rewrite Init_empty.
    destruct Hready as (_ & Hheld & _). cbn [sources mheap] in Hheld.
    rewrite initHeap_loop_exhausted; [done |].
    apply Forall_lookup. intros i src Hi.
    destruct src as [| o src']; [done |].
    destruct (Hheld i _ Hi ltac:(done)) as (x & Hx & _).
    by apply elem_of_nil in Hx. }
  rewrite HNext in Hdrain. cbn [mheap]. fold m1.
  exists ls. split; [exact Hdrain |].
  rewrite Hls. unfold content. cbn [mheap sources m1]. exact Hperm.
Qed.

Lemma merged_source_returns_every_record_witness :
  Forall neverFails [fileA; fileB] /\
  (pendingOutcomes [fileA; fileB] < 6)%nat /\
  exists ls,
    MergedSource.drain 6 (NewMergedSource [fileA; fileB]) = (ls, Some EOF) /\
    ls ≡ₚ unread [fileA; fileB].
Proof.
  assert (Hsrcs : Forall neverFails [fileA; fileB]) by (repeat constructor).
  assert (Hfuel : (pendingOutcomes [fileA; fileB] < 6)%nat) by (vm_compute; lia).
  split; [exact Hsrcs |]. split; [exact Hfuel |].
  exact (merged_source_returns_every_record [fileA; fileB] 6 Hsrcs Hfuel).
Defined.


Section DetectorSampling.

Context `{lib : GoLibrary}.

Lemma sampleLoop_spec (d : Detector) (file : list string) :
  forall lines,
  Detector.sampleLoop d file lines
  = lines ++ take (Z.to_nat (sampleSize d) - length lines)
                  (List.filter sampled file).
Proof.
  induction file as [| l file IH]; intros lines; cbn [Detector.sampleLoop].
  - cbn [List.filter]. by rewrite take_nil, app_nil_r.
  - unfold len. destruct (Z.ltb_spec (Z.of_nat (length lines)) (sampleSize d))
      as [Hlt | Hge].
    + cbn [List.filter]. unfold sampled at 1, Detector.skipped.
      destruct (String.eqb (TrimSpace l) ""); cbn [negb andb orb]; [apply IH |].
      destruct (HasPrefix (TrimSpace l) "#"); cbn [negb]; [apply IH |].
      rewrite IH, length_app. cbn [length].
      replace (Z.to_nat (sampleSize d) - length lines)%nat
        with (S (Z.to_nat (sampleSize d) - (length lines + 1)))%nat by lia.
      cbn [take]. by rewrite <- app_assoc.
    + replace (Z.to_nat (sampleSize d) - length lines)%nat with 0%nat by lia.
      by rewrite take_0, app_nil_r.
Qed.

End DetectorSampling.

(** [sampleFile] returns the first [sampleSize] lines of the file that are
    neither blank nor comments, in the order of the file (none when
    [sampleSize] is not positive). *)
Theorem sampleFile_takes_the_first_lines `{lib : GoLibrary}
    (d : Detector) (file : list string) :
  Detector.sampleFile d file
  = take (Z.to_nat (sampleSize d)) (List.filter sampled file).
Proof.
  unfold Detector.sampleFile. rewrite sampleLoop_spec. cbn [length app].
  by rewrite Nat.sub_0_r.
Qed.

Section UnixMillis.

Context `{lib : GoLibrary}.

Lemma quot_1000_range (v : Z) :
  (Z.quot v 1000 <? 0) || (4102444800 <? Z.quot v 1000) = false
  <-> -999 <= v <= 4102444800999.
Proof.
  rewrite orb_false_iff, !Z.ltb_ge.
  Z.to_euclidean_division_equations. lia.
Qed.

End UnixMillis.

(** The detector reads a timestamp in Unix milliseconds exactly when the
    string is a signed decimal integer from -999 to 4102444800999: the
    milliseconds are divided by 1000 towards zero before the range check, so
    the 999 milliseconds before the epoch pass it, and so do the 999 after
    the last second allowed. *)
Theorem Detector_parseTimestamp_unix_millis `{lib : GoLibrary}
    (tsStr : string) (t : Time) :
  Detector.parseTimestamp tsStr "UNIX_MILLIS" = Some t <->
  exists v, signedDecimal tsStr = Some v /\ -999 <= v <= 4102444800999 /\
            t = time_UnixMilli v.
Proof.
  unfold Detector.parseTimestamp.
  change (String.eqb "UNIX_MILLIS" "UNIX_SECONDS") with false.
  change (String.eqb "UNIX_MILLIS" "UNIX_MILLIS") with true. cbv iota.
  destruct (ParseInt tsStr) as [millis | err] eqn:HP.
  - apply ParseInt_spec in HP as [Hdec Hrange].
    destruct ((Z.quot millis 1000 <? 0) || (4102444800 <? Z.quot millis 1000))
      eqn:Hq.
    + split; [done |]. intros (v & Hv & Hr & _). rewrite Hdec in Hv.
      injection Hv as <-. apply quot_1000_range in Hr. congruence.
    + apply quot_1000_range in Hq. split.
      * intros [= <-]. by exists millis.
      * intros (v & Hv & Hr & ->). rewrite Hdec in Hv. by injection Hv as <-.
  - split; [done |]. intros (v & Hv & Hr & _).
    assert (ParseInt tsStr = inl v) as HP'.
    { apply ParseInt_spec. split; [done |]. unfold minInt64, maxInt64. lia. }
    congruence.
Qed.

Section DetectorCounts.

Context `{lib : GoLibrary}.

Lemma incr_small (x : Z) : 0 <= x < maxInt64 -> incr x = x + 1.
Proof.
  unfold incr, wrap_int, maxInt64. intros Hx.
  rewrite Z.mod_small by lia. lia.
Qed.

Lemma tryFormat_other (l : string) (stats : gmap string formatStats)
    (f : TimestampFormat) (k : string) :
  Name f <> k -> Detector.tryFormat l stats f !! k = stats !! k.
Proof.
  intros Hk. unfold Detector.tryFormat.
  destruct (FindStringSubmatch (Pattern f) l) as [[| whole [| tsStr rest]] |];
    try done.
  destruct (Detector.parseTimestamp tsStr (Layout f)); [| done].
  by rewrite lookup_insert_ne.
Qed.

Lemma tryFormat_same (l : string) (stats : gmap string formatStats)
    (f : TimestampFormat) :
  Detector.tryFormat l stats f !! Name f
  = match accepts f l with
    | Some parsed => Some (counted f l parsed (stats !! Name f))
    | None => stats !! Name f
    end.
Proof.
  unfold Detector.tryFormat, accepts.
  destruct (FindStringSubmatch (Pattern f) l) as [[| whole [| tsStr rest]] |];
    try done.
  destruct (Detector.parseTimestamp tsStr (Layout f)) as [parsed |]; [| done].
  rewrite lookup_insert_eq. unfold counted.
  by destruct (stats !! Name f).
Qed.

Lemma foldl_tryFormat_other (l : string) (k : string)
    (fs : list TimestampFormat) :
  forall stats,
  Forall (fun f => Name f <> k) fs ->
  foldl (Detector.tryFormat l) stats fs !! k = stats !! k.
Proof.
  induction fs as [| f fs IH]; intros stats Hfs; cbn [foldl]; [done |].
  apply Forall_cons in Hfs as [Hf Hfs].
  by rewrite IH, tryFormat_other.
Qed.

Lemma foldl_tryFormat_same (l : string) (f : TimestampFormat)
    (fs : list TimestampFormat) :
  forall stats,
  NoDup (map Name fs) -> f ∈ fs ->
  foldl (Detector.tryFormat l) stats fs !! Name f
  = match accepts f l with
    | Some parsed => Some (counted f l parsed (stats !! Name f))
    | None => stats !! Name f
    end.
Proof.
  induction fs as [| g fs IH]; intros stats Hnd Hf; cbn [foldl].
  { by apply elem_of_nil in Hf. }
  cbn [map] in Hnd. apply NoDup_cons in Hnd as [Hg Hnd].
  apply elem_of_cons in Hf as [-> | Hf].
  - rewrite foldl_tryFormat_other.
    + apply tryFormat_same.
    + apply Forall_forall. intros f Hf Heq. apply Hg. rewrite <- Heq.
      apply list_elem_of_In, in_map, list_elem_of_In, Hf.
  - rewrite IH by done.
    assert (Name g <> Name f) as Hne.
    { intros Heq. apply Hg. rewrite Heq.
      apply list_elem_of_In, in_map, list_elem_of_In, Hf. }
    by rewrite tryFormat_other.
Qed.

Lemma hits_app (f : TimestampFormat) (l k : list string) :
  hits f (l ++ k) = hits f l ++ hits f k.
Proof. unfold hits. apply omap_app. Qed.

Lemma hits_length (f : TimestampFormat) (lines : list string) :
  (length (hits f lines) <= length lines)%nat.
Proof.
  induction lines as [| l lines IH]; [done |].
  unfold hits in *. cbn [omap list_omap]. destruct (hit f l); cbn [length]; lia.
Qed.

(** What the loops of [DetectFromLines] leave in [stats]. *)
Lemma collect_lookup (d : Detector) (lines : list string) :
  NoDup (map Name (formats d)) -> len lines <= maxInt64 ->
  (forall f, f ∈ formats d ->
     Detector.collect d lines !! Name f = statsOf lines f) /\
  (forall k, Forall (fun f => Name f <> k) (formats d) ->
     Detector.collect d lines !! k = None).
Proof.
  intros Hnd. induction lines as [| x lines IH] using rev_ind; intros Hlen.
  - split; intros; apply lookup_empty.
  - unfold len in *. rewrite length_app in Hlen. cbn [length] in Hlen.
    destruct (IH ltac:(lia)) as [IHf IHk]. clear IH.
    unfold Detector.collect in *. rewrite foldl_app. cbn [foldl].
    split.
    + intros f Hf. unfold Detector.tryLine at 1. unfold statsOf.
      rewrite hits_app.
      unfold hits at 2 4. cbn [omap list_omap]. unfold hit.
      destruct (Detector.skipped (TrimSpace x)).
      { rewrite app_nil_r. by apply IHf. }
      rewrite foldl_tryFormat_same by done. rewrite (IHf f Hf).
      destruct (accepts f (TrimSpace x)) as [parsed |]; cbn [fmap option_fmap option_map].
      2: { by rewrite app_nil_r. }
      pose proof (hits_length f lines) as Hhits.
      unfold statsOf, counted.
      destruct (hits f lines) as [| [l0 p0] r] eqn:Hh;
        cbn [app default from_option id fsFormat matchCount sampleLine parsedTime].
      * reflexivity.
      *
        rewrite incr_small; [| unfold len, maxInt64 in *; cbn [length] in *; lia].
        do 2 f_equal. unfold len. cbn [length]. rewrite length_app.
        cbn [length]. lia.
    + intros k Hk. unfold Detector.tryLine at 1.
      destruct (Detector.skipped (TrimSpace x)); [by apply IHk |].
      rewrite foldl_tryFormat_other by done. by apply IHk.
Qed.

Lemma matchOf_statsOf (lines : list string) (f : TimestampFormat) :
  matchOf lines f = Detector.toMatch (len lines) <$> statsOf lines f.
Proof.
  unfold matchOf, statsOf. by destruct (hits f lines) as [| [l p] r].
Qed.

Lemma statsOf_format (lines : list string) (f : TimestampFormat)
    (s : formatStats) :
  statsOf lines f = Some s -> fsFormat s = f.
Proof.
  unfold statsOf. destruct (hits f lines) as [| [l p] r]; [done |].
  by intros [= <-].
Qed.

Lemma named_or_not (fs : list TimestampFormat) (k : string) :
  (exists f, f ∈ fs /\ Name f = k) \/ Forall (fun f => Name f <> k) fs.
Proof.
  induction fs as [| g fs [(f & Hf & Hk) | Hfs]].
  - right. constructor.
  - left. exists f. split; [by right | done].
  - destruct (decide (Name g = k)) as [Hg | Hg].
    + left. exists g. split; [by left | done].
    + right. by constructor.
Qed.

Lemma omap_matchOf_NoDup (lines : list string) (fs : list TimestampFormat) :
  NoDup (map Name fs) -> NoDup (omap (matchOf lines) fs).
Proof.
  induction fs as [| f fs IH]; intros Hnd; cbn [omap list_omap]; [constructor |].
  cbn [map] in Hnd. apply NoDup_cons in Hnd as [Hf Hnd].
  destruct (matchOf lines f) as [m |] eqn:Hm; [| by apply IH].
  apply NoDup_cons. split; [| by apply IH].
  intros (g & Hg & Hgm)%list_elem_of_omap. apply Hf.
  rewrite matchOf_statsOf in Hm, Hgm.
  destruct (statsOf lines f) as [s |] eqn:Hs; [| done].
  destruct (statsOf lines g) as [s' |] eqn:Hs'; [| done].
  apply statsOf_format in Hs, Hs'.
  injection Hm as <-. apply (inj Some) in Hgm.
  apply (f_equal Format) in Hgm. cbn [Format Detector.toMatch] in Hgm.
  rewrite Hs, Hs' in Hgm. subst g. rewrite <- Hgm.
  apply list_elem_of_In, in_map, list_elem_of_In, Hg.
Qed.

Lemma DetectFromLines_matches (ord : MapRange formatStats)
    (srt : SliceSort FormatMatch) (d : Detector) (lines : list string) :
  NoDup (map Name (formats d)) -> len lines <= maxInt64 ->
  Matches (Detector.DetectFromLines ord srt d lines)
  ≡ₚ omap (matchOf lines) (formats d).
Proof.
  intros Hnd Hlen.
  destruct (collect_lookup d lines Hnd Hlen) as [Hnamed Hother].
  unfold Detector.DetectFromLines.
  destruct lines as [| l0 ls] eqn:Hlines.
  { cbn [Matches]. clear. induction (formats d) as [| f fs IH]; [done |].
    cbn [omap list_omap]. by unfold matchOf at 1; cbn. }
  rewrite <- Hlines in *. cbn [Matches].
  rewrite sortSlice_perm, (visit_perm ord).
  apply NoDup_Permutation.
  - apply (NoDup_fmap_1 (fun m => Name (Format m))).
    rewrite <- list_fmap_compose.
    assert (Hfst : (fun m => Name (Format m))
                   ∘ (fun kv => Detector.toMatch (len lines) kv.2)
                   <$> map_to_list (Detector.collect d lines)
                   = (map_to_list (Detector.collect d lines)).*1).
    { apply list_fmap_ext. intros i [k s] Hi%list_elem_of_lookup_2.
      apply elem_of_map_to_list in Hi. cbn.
      destruct (named_or_not (formats d) k) as [(f & Hf & <-) | Hk].
      - rewrite (Hnamed f Hf) in Hi. by rewrite (statsOf_format _ _ _ Hi).
      - by rewrite (Hother k Hk) in Hi. }
    rewrite Hfst. apply NoDup_fst_map_to_list.
  - by apply omap_matchOf_NoDup.
  - intros m. rewrite list_elem_of_omap. split.
    + intros ([k s] & -> & Hks)%list_elem_of_fmap.
      apply elem_of_map_to_list in Hks. cbn [snd].
      destruct (named_or_not (formats d) k) as [(f & Hf & <-) | Hk].
      * exists f. split; [done |]. rewrite (Hnamed f Hf) in Hks.
        by rewrite matchOf_statsOf, Hks.
      * by rewrite (Hother k Hk) in Hks.
    + intros (f & Hf & Hm). rewrite matchOf_statsOf in Hm.
      destruct (statsOf lines f) as [s |] eqn:Hs; [| done].
      injection Hm as <-. apply list_elem_of_fmap.
      exists (Name f, s). split; [done |].
      apply elem_of_map_to_list. by rewrite (Hnamed f Hf).
Qed.

End DetectorCounts.

(** With formats of distinct names, [DetectFromLines] returns one match for
    each format that reads at least one line, and no other: its count is the
    number of lines, trimmed, neither blank nor comments, from which the
    format reads a timestamp, its confidence that count over the number of
    all the lines given, its sample the first such line. *)
Theorem DetectFromLines_one_match_per_format `{lib : GoLibrary}
    (ord : MapRange formatStats) (srt : SliceSort FormatMatch)
    (d : Detector) (lines : list string) :
  NoDup (map Name (formats d)) -> len lines <= maxInt64 ->
  Matches (Detector.DetectFromLines ord srt d lines)
  ≡ₚ omap (matchOf lines) (formats d).
Proof. apply DetectFromLines_matches. Qed.

Lemma DetectFromLines_one_match_per_format_witness :
  NoDup (map Name (formats unixDetector)) /\
  len commentedSample <= maxInt64 /\
  Matches (Detector.DetectFromLines (H := exampleLibrary) inOrder stableSort
             unixDetector commentedSample)
  ≡ₚ omap (matchOf (H := exampleLibrary) commentedSample)
       (formats unixDetector).
Proof.
  assert (Hnd : NoDup (map Name (formats unixDetector))).
  { cbn. apply NoDup_singleton. }
  assert (Hlen : len commentedSample <= maxInt64) by (vm_compute; discriminate).
  split; [exact Hnd |]. split; [exact Hlen |].
  exact (DetectFromLines_one_match_per_format (lib := exampleLibrary)
           inOrder stableSort unixDetector commentedSample Hnd Hlen).
Defined.

(** [DetectFromFile] measures confidence on the sample: with formats of
    distinct names it returns one match for each format that reads at least
    one of the first [sampleSize] lines of the file that are neither blank
    nor comments, counting those lines alone. *)
Theorem DetectFromFile_matches_on_the_sample `{lib : GoLibrary}
    (ord : MapRange formatStats) (srt : SliceSort FormatMatch)
    (d : Detector) (file : list string) :
  NoDup (map Name (formats d)) -> sampleSize d <= maxInt64 ->
  Matches (DetectFromFile ord srt d file)
  ≡ₚ omap (matchOf (take (Z.to_nat (sampleSize d)) (List.filter sampled file)))
       (formats d).
Proof.
  intros Hnd Hsize. unfold DetectFromFile, Detector.sampleFile.
  rewrite sampleLoop_spec. cbn [length app]. rewrite Nat.sub_0_r.
  apply DetectFromLines_matches; [done |].
  unfold len. rewrite length_take. unfold maxInt64 in *. lia.
Qed.

Lemma DetectFromFile_matches_on_the_sample_witness :
  NoDup (map Name (formats unixDetector)) /\
  sampleSize unixDetector <= maxInt64 /\
  Matches (DetectFromFile (H := exampleLibrary) inOrder stableSort
             unixDetector commentedSample)
  ≡ₚ omap (matchOf (H := exampleLibrary)
             (take (Z.to_nat (sampleSize unixDetector))
                (List.filter (sampled (H := exampleLibrary)) commentedSample)))
       (formats unixDetector).
Proof.
  assert (Hnd : NoDup (map Name (formats unixDetector))).
  { cbn. apply NoDup_singleton. }
  assert (Hsize : sampleSize unixDetector <= maxInt64)
    by (vm_compute; discriminate).
  split; [exact Hnd |]. split; [exact Hsize |].
  exact (DetectFromFile_matches_on_the_sample (lib := exampleLibrary)
           inOrder stableSort unixDetector commentedSample Hnd Hsize).
Defined.
